(** * pta_replicator: the white-noise module and the pulsar loader

    A shallow embedding of [white_noise.py] ([quantize_fast],
    [add_measurement_noise], [add_jitter]) and of [load_pulsar],
    [load_from_directories] and [make_ideal] from [simulate.py] / [sim.py],
    with the properties the specification states about them.

    Numbers.  The source computes on IEEE doubles; here every float is an
    exact rational ([Q]).  Equalities between computed numbers are therefore
    stated with [==] ([Qeq]); the order comparisons of the quantizer are the
    exact ones, and so is the mean of a bucket.  What is proved about the
    buckets rests on the comparisons that the loop itself makes, not on sums
    of the compared differences, which rounding does not preserve.  The real
    power [10**x] and the normal deviates of
    [np.random.randn] are not rational functions: both are parameters of the
    development. *)

From Stdlib Require Import QArith Qround Lqa.
From stdpp Require Import base option list strings gmap sorting.

(** ** Python exceptions raised by the modelled code *)

Inductive exn : Type :=
  | IndexError
  | TypeError
  | ValueError (msg : string)
  | KeyError (key : string)
  | AttributeError (msg : string)
  | FileNotFoundError (msg : string).

(** ** numpy helpers *)

(** [x < y] on floats. *)
Definition Qltb (x y : Q) : bool := negb (Qle_bool y x).

(** [times[i]]; indices handed to it come from [np.argsort] and are in range. *)
Definition time_at (times : list Q) (i : nat) : Q := default 0%Q (times !! i).

(** [np.argsort(times)]: the indices [0 .. N-1] ordered by ascending time.
    numpy leaves the order of ties open; this one keeps ties in index order. *)
Fixpoint insert_index (times : list Q) (i : nat) (l : list nat) : list nat :=
  match l with
  | [] => [i]
  | j :: l' =>
      if Qle_bool (time_at times i) (time_at times j)
      then i :: j :: l'
      else j :: insert_index times i l'
  end.

Definition argsort (times : list Q) : list nat :=
  foldr (insert_index times) [] (seq 0 (length times)).

(** [enumerate(l)] *)
Definition enumerate {A : Type} (l : list A) : list (nat * A) :=
  zip (seq 0 (length l)) l.

(** [np.mean(xs)] *)
Definition np_sum (xs : list Q) : Q := foldr Qplus 0%Q xs.
Definition np_mean (xs : list Q) : Q :=
  (np_sum xs / inject_Z (Z.of_nat (length xs)))%Q.

(** ** Epoch quantizer: [quantize_fast] *)

(** [bucket_ref[-1]] *)
Definition last_ref (bucket_ref : list Q) : Q := default 0%Q (last bucket_ref).

(** [bucket_ind[-1].append(i)] *)
Fixpoint append_to_last (bucket_ind : list (list nat)) (i : nat) : list (list nat) :=
  match bucket_ind with
  | [] => []
  | [b] => [b ++ [i]]
  | b :: rest => b :: append_to_last rest i
  end.

(** One iteration of [for i in isort[1:]] on the pair
    [(bucket_ref, bucket_ind)]. *)
Definition bucket_step (times : list Q) (dt : Q)
    (st : list Q * list (list nat)) (i : nat) : list Q * list (list nat) :=
  let '(bucket_ref, bucket_ind) := st in
  if Qltb (time_at times i - last_ref bucket_ref) dt
  then (bucket_ref, append_to_last bucket_ind i)
  else (bucket_ref ++ [time_at times i], bucket_ind ++ [[i]]).

(** Lines 23-31: the bucket anchors and the bucket member lists.  [None] is
    the [IndexError] of [isort[0]] on an empty array. *)
Definition bucketize (times : list Q) (dt : Q) (isort : list nat)
    : option (list Q * list (list nat)) :=
  match isort with
  | [] => None
  | i0 :: rest =>
      Some (foldl (bucket_step times dt) ([time_at times i0], [[i0]]) rest)
  end.

(** [U[l, c] = 1] for a list [l] of row indices. *)
Definition set_rows (U : list (list Q)) (l : list nat) (c : nat) : list (list Q) :=
  foldl (fun U r => alter (fun row => <[c := 1%Q]> row) r U) U l.

(** [U = np.zeros((n, len(bucket_ind)))] followed by
    [for i, l in enumerate(bucket_ind): U[l, i] = 1]. *)
Definition mapping_matrix (n : nat) (bucket_ind : list (list nat)) : list (list Q) :=
  foldl (fun U '(i, l) => set_rows U l i)
        (replicate n (replicate (length bucket_ind) 0%Q))
        (enumerate bucket_ind).

(** [np.array([flags[ind[0]] for ind in bucket_ind])]; [None] is an
    [IndexError]. *)
Definition bucket_flags (flags : list string) (bucket_ind : list (list nat))
    : option (list string) :=
  mapM (fun ind => i ← head ind; flags !! i) bucket_ind.

Definition quantize_fast (times : list Q) (flags : option (list string)) (dt : Q)
    : exn + (list Q * option (list string) * list (list Q)) :=
  let isort := argsort times in
  match bucketize times dt isort with
  | None => inl IndexError
  | Some (bucket_ref, bucket_ind) =>
      let avetoas := fmap (fun ind => np_mean (fmap (time_at times) ind)) bucket_ind in
      let U := mapping_matrix (length times) bucket_ind in
      match flags with
      | Some fl =>
          match bucket_flags fl bucket_ind with
          | None => inl IndexError
          | Some aveflags => inr (avetoas, Some aveflags, U)
          end
      | None => inr (avetoas, None, U)
      end
  end.

(** ** The pulsar handle ([SimulatedPulsar]) and its collaborators *)

(** A PINT timing model, as far as the code reads it: an attribute that the
    model does not define is [None] (reading it raises [AttributeError]). *)
Record TimingModel : Type := {
  PSR : string;
  RAJ : option Q;
  DECJ : option Q;
  ELONG : option Q;
  ELAT : option Q
}.

(** One row of the TOA table: the arrival time in days (MJD), the stated
    uncertainty in seconds (the value of [get_errors().to('s')]) and the
    flag dictionary of the row. *)
Record TOA : Type := {
  toa_mjd : Q;
  toa_error : Q;
  toa_flags : gmap string string
}.

Record SimulatedPulsar : Type := {
  ephem : string;
  model : TimingModel;
  toas : list TOA;
  residuals : list Q;
  name : string;
  loc : gmap string Q
}.

(** What the modelled code takes from numpy, astropy, PINT and the operating
    system.  The state of numpy's global generator is represented by the
    sequence of normal deviates it is going to deliver. *)
Class Backend : Type := {
  (** [10**x] on doubles *)
  pow10 : Q -> Q;
  (** the generator state installed by [np.random.seed(seed)] *)
  seeded : Z -> nat -> Q;
  (** [Residuals(toas, model)], for arguments on which PINT returns (it
      raises on some, a table without observations among them) *)
  Residuals : list TOA -> TimingModel -> list Q;
  (** Modelled from the spec: [psr.flagvals], which [add_jitter] calls and
      the class [SimulatedPulsar] does not define; section 6 gives it as
      [get_flags(key) -> seq<string>], one flag value per observation. *)
  flagvals : SimulatedPulsar -> list string -> list string;
  (** [os.path.isfile] *)
  isfile : string -> bool;
  (** [models.get_model(parfile)] *)
  get_model : string -> TimingModel;
  (** [toa.get_TOAs(timfile, ephem=ephem, planets=True)] *)
  get_TOAs : string -> string -> list TOA
}.

(** ** Effects: the global generator, the pulsar handle, exceptions *)

Record world : Type := {
  rng : nat -> Q;
  psr : SimulatedPulsar
}.

(** A computation ends in a value or in an exception; either way the world
    it leaves behind is kept. *)
Definition M (A : Type) : Type := world -> (exn + A) * world.

#[export] Instance M_ret : MRet M := fun A x w => (inr x, w).
#[export] Instance M_bind : MBind M := fun A B f m w =>
  match m w with
  | (inr x, w') => f x w'
  | (inl e, w') => (inl e, w')
  end.

Definition raise {A : Type} (e : exn) : M A := fun w => (inl e, w).

Definition lift_exn {A : Type} (r : exn + A) : M A := fun w => (r, w).

Definition get_psr : M SimulatedPulsar := fun w => (inr (psr w), w).

Definition put_psr (p : SimulatedPulsar) : M unit :=
  fun w => (inr tt, {| rng := rng w; psr := p |}).

Section Injector.
Context `{B : Backend}.

(** [np.random.seed(seed)], for a seed that numpy accepts (an integer from
    0 to [2**32 - 1]) *)
Definition np_random_seed (seed : Z) : M unit :=
  fun w => (inr tt, {| rng := seeded seed; psr := psr w |}).

(** [if seed is not None: np.random.seed(seed)] *)
Definition maybe_seed (seed : option Z) : M unit :=
  match seed with
  | Some s => np_random_seed s
  | None => mret tt
  end.

(** [np.random.randn(n)]: the next [n] deviates, which are used up. *)
Definition np_random_randn (n : nat) : M (list Q) :=
  fun w => (inr (fmap (rng w) (seq 0 n)),
            {| rng := fun k => rng w (n + k)%nat; psr := psr w |}).

(** [psr.toas.adjust_TOAs(TimeDelta(delta))]: [delta], in days, is added to
    the arrival times. *)
Definition shift_toas (p : SimulatedPulsar) (delta : list Q) : SimulatedPulsar :=
  {| ephem := ephem p; model := model p;
     toas := zip_with (fun t d =>
               {| toa_mjd := (toa_mjd t + d)%Q;
                  toa_error := toa_error t;
                  toa_flags := toa_flags t |}) (toas p) delta;
     residuals := residuals p; name := name p; loc := loc p |}.

Definition adjust_TOAs (delta : list Q) : M unit :=
  p ← get_psr;
  put_psr (shift_toas p delta).

(** [psr.update_residuals()]: [self.residuals = Residuals(self.toas, self.model)] *)
Definition refresh_residuals (p : SimulatedPulsar) : SimulatedPulsar :=
  {| ephem := ephem p; model := model p; toas := toas p;
     residuals := Residuals (toas p) (model p);
     name := name p; loc := loc p |}.

Definition update_residuals : M unit :=
  p ← get_psr;
  put_psr (refresh_residuals p).

(** ** Noise parameters: a scalar or an array *)

Inductive param : Type :=
  | Scalar (x : Q)
  | Array (xs : list Q).

(** [np.isscalar(p)] *)
Definition isscalar (p : param) : bool :=
  match p with
  | Scalar _ => true
  | Array _ => false
  end.

(** [len(p)]; a float has no length. *)
Definition len (p : param) : exn + nat :=
  match p with
  | Scalar _ => inl TypeError
  | Array xs => inr (length xs)
  end.

(** [p[ct]] for an index below [len(p)] *)
Definition item (p : param) (ct : nat) : Q :=
  match p with
  | Scalar x => x
  | Array xs => default 0%Q (xs !! ct)
  end.

(** [10**p], elementwise on a numpy array (on a Python list [10**p] raises
    [TypeError]) *)
Definition power10 (p : param) : param :=
  match p with
  | Scalar x => Scalar (pow10 x)
  | Array xs => Array (fmap pow10 xs)
  end.

(** [np.zeros(n)], [np.ones(n) * x] *)
Definition np_zeros (n : nat) : list Q := replicate n 0%Q.
Definition np_ones_times (n : nat) (x : Q) : list Q :=
  fmap (fun o => (o * x)%Q) (replicate n 1%Q).

(** [vec[ind] = v] for a boolean mask [ind] *)
Definition mask_assign (vec : list Q) (ind : list bool) (v : Q) : list Q :=
  zip_with (fun x (m : bool) => if m then v else x) vec ind.

(** [flag == np.array(fs)] *)
Definition flag_mask (flag : string) (fs : list string) : list bool :=
  fmap (fun f => bool_decide (flag = f)) fs.

(** Elementwise product and sum of arrays of one shape *)
Definition vmul (xs ys : list Q) : list Q := zip_with Qmult xs ys.
Definition vadd (xs ys : list Q) : list Q := zip_with Qplus xs ys.

(** [U * v] (the row vector [v] broadcast over the rows) and [np.dot(A, z)] *)
Definition scale_columns (U : list (list Q)) (v : list Q) : list (list Q) :=
  fmap (fun row => vmul row v) U.
Definition np_dot (A : list (list Q)) (z : list Q) : list Q :=
  fmap (fun row => np_sum (vmul row z)) A.

(** [U.shape[1]] of a matrix with at least one row *)
Definition shape1 (U : list (list Q)) : nat := length (default [] (head U)).

(** [dt.to('day')] for [dt] in seconds *)
Definition to_day (dt : list Q) : list Q := fmap (fun x => (x / 86400)%Q) dt.

(** ** Measurement noise: [add_measurement_noise] *)

(** [np.array([f['f'] for f in psr.toas.table['flags'].data])] *)
Definition table_flags (p : SimulatedPulsar) : exn + list string :=
  match mapM (fun t => toa_flags t !! "f") (toas p) with
  | Some fs => inr fs
  | None => inl (KeyError "f")
  end.

(** Lines 91-95: the loop that scatters the per-flag values. *)
Definition scatter_flags (p : SimulatedPulsar) (flags : list string)
    (efac equad : param) (vecs : list Q * list Q) : M (list Q * list Q) :=
  foldl (fun (acc : M (list Q * list Q)) '(ct, flag) =>
           '(efacvec, equadvec) ← acc;
           fs ← lift_exn (table_flags p);
           let ind := flag_mask flag fs in
           mret (mask_assign efacvec ind (item efac ct),
                 mask_assign equadvec ind (item equad ct)))
        (mret vecs) (enumerate flags).

(** Lines 69-72: [equad] *)
Definition equad_of (log10_equad : option param) : param :=
  match log10_equad with
  | Some le => power10 le
  | None => Scalar 0%Q
  end.

(** Lines 69-97: [equad], the seeding, and the vectors [efacvec] and
    [equadvec] with their validation. *)
Definition noise_vectors (efac : param) (log10_equad : option param)
    (flags : option (list string)) (seed : option Z) : M (list Q * list Q) :=
  let equad := equad_of log10_equad in
  _ ← maybe_seed seed;
  p ← get_psr;
  let ntoas := length (toas p) in
  let efacvec := np_zeros ntoas in
  let equadvec := np_zeros ntoas in
  '(efacvec, equadvec) ←
    match flags with
    | None =>
        match efac, equad with
        | Scalar e, Scalar q =>
            mret (np_ones_times ntoas e, np_ones_times ntoas q)
        | _, _ =>
            raise (ValueError "ERROR: If flags is None, efac and equad must be a scalar")
        end
    | Some _ => mret (efacvec, equadvec)
    end;
  match flags with
  | Some fl =>
      if negb (isscalar efac) || negb (isscalar equad) then
        le ← lift_exn (len efac);
        if bool_decide (le = length fl) then
          lq ← lift_exn (len equad);
          if bool_decide (lq = length fl) then
            scatter_flags p fl efac equad (efacvec, equadvec)
          else raise (ValueError "ERROR: flags must be same length as efac and equad")
        else raise (ValueError "ERROR: flags must be same length as efac and equad")
      else mret (efacvec, equadvec)
  | None => mret (efacvec, equadvec)
  end.

(** Lines 69-103: the offsets [dt], in seconds. *)
Definition measurement_noise_dt (efac : param) (log10_equad : option param)
    (flags : option (list string)) (seed : option Z) (tnequad : bool)
    : M (list Q) :=
  '(efacvec, equadvec) ← noise_vectors efac log10_equad flags seed;
  p ← get_psr;
  let ntoas := length (toas p) in
  z1 ← np_random_randn ntoas;
  let dt := vmul (vmul efacvec (fmap toa_error (toas p))) z1 in
  z2 ← np_random_randn ntoas;
  if tnequad
  then mret (vadd dt (vmul equadvec z2))
  else mret (vadd dt (vmul (vmul efacvec equadvec) z2)).

Definition add_measurement_noise (efac : param) (log10_equad : option param)
    (flags : option (list string)) (seed : option Z) (tnequad : bool)
    : M unit :=
  dt ← measurement_noise_dt efac log10_equad flags seed tnequad;
  _ ← adjust_TOAs (to_day dt);
  update_residuals.

(** ** Jitter: [add_jitter] *)

(** Modelled from the spec: [psr.toas()], which [add_jitter] calls as in
    libstempo; section 6 gives it as [get_times() -> seq<float>]. *)
Definition toas_times (p : SimulatedPulsar) : list Q := fmap toa_mjd (toas p).

(** Lines 149-151: the loop over the supplied flags, on bucket flags [f]. *)
Definition scatter_ecorr (flags : list string) (f : list string)
    (ecorr : param) (ecorrvec : list Q) : list Q :=
  foldl (fun ecorrvec '(ct, flag) =>
           mask_assign ecorrvec (flag_mask flag f) (item ecorr ct))
        ecorrvec (enumerate flags).

(** Lines 132-135: the quantization of the arrival times. *)
Definition quantize_toas (p : SimulatedPulsar) (flags : option (list string))
    (coarsegrain : Q) : exn + (list Q * option (list string) * list (list Q)) :=
  match flags with
  | None => quantize_fast (toas_times p) None coarsegrain
  | Some fl => quantize_fast (toas_times p) (Some (flagvals p fl)) coarsegrain
  end.

(** Lines 129-153: seeding, quantization, and [ecorrvec] with its
    validation; returns [U] and [ecorrvec]. *)
Definition jitter_vectors (ecorr : param) (flags : option (list string))
    (coarsegrain : Q) (seed : option Z) : M (list (list Q) * list Q) :=
  _ ← maybe_seed seed;
  p ← get_psr;
  '(t, f, U) ← lift_exn (quantize_toas p flags coarsegrain);
  let ecorrvec := np_zeros (length t) in
  ecorrvec ←
    match flags with
    | None =>
        match ecorr with
        | Scalar e => mret (np_ones_times (length t) e)
        | Array _ => raise (ValueError "ERROR: If flags is None, jitter must be a scalar")
        end
    | Some _ => mret ecorrvec
    end;
  match flags with
  | Some fl =>
      if negb (isscalar ecorr) then
        le ← lift_exn (len ecorr);
        if bool_decide (le = length fl)
        then mret (U, scatter_ecorr fl (default [] f) ecorr ecorrvec)
        else raise (ValueError "ERROR: flags must be same length as jitter")
      else mret (U, ecorrvec)
  | None => mret (U, ecorrvec)
  end.

(** Lines 129-155: the offsets [dt], in seconds. *)
Definition jitter_dt (ecorr : param) (flags : option (list string))
    (coarsegrain : Q) (seed : option Z) : M (list Q) :=
  '(U, ecorrvec) ← jitter_vectors ecorr flags coarsegrain seed;
  z ← np_random_randn (shape1 U);
  mret (np_dot (scale_columns U ecorrvec) z).

Definition add_jitter (ecorr : param) (flags : option (list string))
    (coarsegrain : Q) (seed : option Z) : M unit :=
  dt ← jitter_dt ecorr flags coarsegrain seed;
  _ ← adjust_TOAs (to_day dt);
  update_residuals.

(** ** Loading a pulsar: [load_pulsar] *)

(** [model.X.value]: [AttributeError] when the model has no attribute [X]. *)
Definition attr (nm : string) (v : option Q) : exn + Q :=
  match v with
  | Some x => inr x
  | None => inl (AttributeError ("'TimingModel' object has no attribute " +:+ nm))
  end.

Definition load_pulsar (parfile timfile ephem0 : string) : exn + SimulatedPulsar :=
  if negb (isfile parfile) then inl (FileNotFoundError "par file does not exist.")
  else if negb (isfile timfile) then inl (FileNotFoundError "tim file does not exist.")
  else
    let model0 := get_model parfile in
    let toas0 := get_TOAs timfile ephem0 in
    let residuals0 := Residuals toas0 model0 in
    let name0 := PSR model0 in
    (* try: loc = {'RAJ': model.RAJ.value, 'DECJ': model.DECJ.value} *)
    let try_body : exn + gmap string Q :=
      match attr "RAJ" (RAJ model0), attr "DECJ" (DECJ model0) with
      | inr ra, inr dec => inr (<["RAJ" := ra]> (<["DECJ" := dec]> ∅))
      | inl e, _ => inl e
      | inr _, inl e => inl e
      end in
    match try_body with
    | inl (AttributeError _) =>
        (* except AttributeError: *)
        match attr "ELONG" (ELONG model0), attr "ELAT" (ELAT model0) with
        | inr elong, inr elat =>
            inr {| ephem := ephem0; model := model0; toas := toas0;
                   residuals := residuals0; name := name0;
                   loc := <["ELONG" := elong]> (<["ELAT" := elat]> ∅) |}
        | inl e, _ => inl e
        | inr _, inl e => inl e
        end
    | inl e => inl e
    | inr _ =>
        (* else: *)
        inl (AttributeError "No pulsar location information (RAJ/DECJ or ELONG/ELAT) in parfile.")
    end.

End Injector.

(** ** Loading a directory of pulsars: [load_from_directories] *)

(** What [load_from_directories] takes from the operating system. *)
Class Directories : Type := {
  (** [os.path.isdir] *)
  isdir : string -> bool;
  (** [glob.glob(pattern)], in the order the operating system gives *)
  glob : string -> list string
}.

(** [sorted(paths)]: strings in ascending order. *)
Fixpoint insert_path (p : string) (l : list string) : list string :=
  match l with
  | [] => [p]
  | q :: l' => if String.leb p q then p :: q :: l' else q :: insert_path p l'
  end.

Definition sorted (l : list string) : list string := foldr insert_path [] l.

(** [sub in s] on strings *)
Fixpoint contains (sub s : string) : bool :=
  String.prefix sub s ||
  match s with
  | EmptyString => false
  | String _ s' => contains sub s'
  end.

(** [if num_psrs: if len(psrs) >= num_psrs: break]: [None] and 0 are
    false. *)
Definition limit_reached (num_psrs : option Z) (psrs : list SimulatedPulsar)
    : bool :=
  match num_psrs with
  | None => false
  | Some n => negb (n =? 0)%Z && (n <=? Z.of_nat (length psrs))%Z
  end.

Section Loader.
Context `{B : Backend} `{D : Directories}.

(** [for par, tim in combo_list: ...], with [psrs] as built so far. *)
Fixpoint load_loop (ephem0 : string) (num_psrs : option Z)
    (combo_list : list (string * string)) (psrs : list SimulatedPulsar)
    : exn + list SimulatedPulsar :=
  match combo_list with
  | [] => inr psrs
  | (par, tim) :: rest =>
      if limit_reached num_psrs psrs then inr psrs
      else
        match load_pulsar par tim ephem0 with
        | inl e => inl e
        | inr p => load_loop ephem0 num_psrs rest (psrs ++ [p])
        end
  end.

(** Lines 103-106 of [simulate.py]: the pairs of par and tim files. *)
Definition combo_list (pardir timdir : string) : list (string * string) :=
  let unfiltered_pars := sorted (glob (pardir +:+ "/*.par")) in
  let filtered_pars := filter (fun p => negb (contains ".t2" p) = true) unfiltered_pars in
  let unfiltered_tims := sorted (glob (timdir +:+ "/*.tim")) in
  zip filtered_pars unfiltered_tims.

(** [load_from_directories] of [simulate.py] *)
Definition load_from_directories (pardir timdir ephem0 : string)
    (num_psrs : option Z) : exn + list SimulatedPulsar :=
  if negb (isdir pardir) then inl (FileNotFoundError "par directory does not exist.")
  else if negb (isdir timdir) then inl (FileNotFoundError "tim directory does not exist.")
  else load_loop ephem0 num_psrs (combo_list pardir timdir) [].

(** [load_from_directories] of [sim.py], which does not look at the
    directories first *)
Definition sim_load_from_directories (par_dir tim_dir ephem0 : string)
    (num_psrs : option Z) : exn + list SimulatedPulsar :=
  load_loop ephem0 num_psrs (combo_list par_dir tim_dir) [].

(** ** Zeroing the residuals: [make_ideal] *)

(** One turn of the loop: [residuals = Residuals(psr.toas, psr.model)] and
    [psr.toas.adjust_TOAs(TimeDelta(-1.0*residuals.time_resids))], the
    residuals being times in seconds. *)
Definition ideal_step : M unit :=
  p ← get_psr;
  let residuals0 := Residuals (toas p) (model p) in
  adjust_TOAs (to_day ((fun r => (-1 * r)%Q) <$> residuals0)).

(** [for ii in range(n): body] *)
Fixpoint for_range (n : nat) (body : M unit) : M unit :=
  match n with
  | O => mret tt
  | S n' => _ ← body; for_range n' body
  end.

Definition make_ideal (iterations : Z) : M unit :=
  _ ← for_range (Z.to_nat iterations) ideal_step;
  update_residuals.

End Loader.

(** ** Vocabulary of the properties *)

(** [i] comes no later than [j] in time. *)
Definition time_le (times : list Q) (i j : nat) : Prop :=
  (time_at times i <= time_at times j)%Q.

(** The anchor [a] of a bucket [b] is the time of the observation that
    opened [b]; every later member passed the test against [a]. *)
Definition anchored (times : list Q) (dt : Q) (a : Q) (b : list nat) : Prop :=
  ∃ h rest, b = h :: rest ∧ a = time_at times h ∧
            Forall (fun i => (time_at times i - a < dt)%Q) rest.

(** What holds of [(bucket_ref, bucket_ind)] once the observations [L] have
    been placed. *)
Record bucket_inv (times : list Q) (dt : Q) (L : list nat)
    (st : list Q * list (list nat)) : Prop := {
  inv_concat : concat st.2 = L;
  inv_anchored : Forall2 (anchored times dt) st.1 st.2;
  inv_gap : ∀ k a b' h',
    st.1 !! k = Some a → st.2 !! S k = Some b' → head b' = Some h' →
    (dt <= time_at times h' - a)%Q
}.
Arguments inv_concat {_ _ _ _}.
Arguments inv_anchored {_ _ _ _}.
Arguments inv_gap {_ _ _ _}.

(** The entry of the incidence matrix of [inds] at row [r], column [c]. *)
Definition cell (inds : list (list nat)) (r c : nat) : Q :=
  if bool_decide (r ∈ default [] (inds !! c)) then 1%Q else 0%Q.

(** The [n] x [m] incidence matrix of the buckets [inds]. *)
Definition incidence (n m : nat) (inds : list (list nat)) : list (list Q) :=
  fmap (fun r => fmap (cell inds r) (seq 0 m)) (seq 0 n).

(** The vector of length [m] that is 1 at [c] and 0 elsewhere. *)
Definition unit_vec (m c : nat) : list Q := <[c := 1%Q]> (replicate m 0%Q).

(** Column [c] of a matrix, and its sum. *)
Definition column (U : list (list Q)) (c : nat) : list Q :=
  fmap (fun row => default 0%Q (row !! c)) U.
Definition col_sum (U : list (list Q)) (c : nat) : Q := np_sum (column U c).

(** [U] maps the observations [0 .. n-1] to the buckets [inds]: one row per
    observation, each row the unit vector of the bucket that holds the
    observation, no empty column, and the buckets together list every index
    exactly once. *)
Definition partition_matrix (n : nat) (inds : list (list nat))
    (U : list (list Q)) : Prop :=
  length U = n ∧
  (∀ r row, U !! r = Some row →
     ∃ c b, inds !! c = Some b ∧ r ∈ b ∧ row = unit_vec (length inds) c) ∧
  (∀ c, c < length inds → (1 <= col_sum U c)%Q) ∧
  concat inds ≡ₚ seq 0 n.

(** The gap from the last member of each bucket to the first member of the
    next one is at least [dt]. *)
Definition last_to_first_gap (times : list Q) (dt : Q)
    (inds : list (list nat)) : Prop :=
  ∀ k b b' l h',
    inds !! k = Some b → inds !! S k = Some b' →
    last b = Some l → head b' = Some h' →
    (dt <= time_at times h' - time_at times l)%Q.

(** The gap from the anchor of each bucket to the first member of the next
    one is at least [dt]. *)
Definition anchor_to_first_gap (times : list Q) (dt : Q)
    (refs : list Q) (inds : list (list nat)) : Prop :=
  ∀ k a b' h',
    refs !! k = Some a → inds !! S k = Some b' → head b' = Some h' →
    (dt <= time_at times h' - a)%Q.

(** The greedy rule, read off the result: of two observations [i], [j] that
    follow each other in time order, [j] is in the bucket of [i] exactly when
    its time minus that bucket's anchor is below [dt]. *)
Definition greedy_rule (times : list Q) (dt : Q) (isort : list nat)
    (refs : list Q) (inds : list (list nat)) : Prop :=
  ∀ p i j k a b,
    isort !! p = Some i → isort !! S p = Some j →
    refs !! k = Some a → inds !! k = Some b → i ∈ b →
    (j ∈ b ↔ (time_at times j - a < dt)%Q).

(** [v] is what the loop over the supplied [flags] leaves, starting from 0,
    at an entry whose own flag is [fb]: the value of [vals] at the last
    position of [fb] in [flags], and 0 when [fb] is not in [flags]. *)
Definition selected_by_flag (flags : list string) (vals : param) (fb : string)
    (v : Q) : Prop :=
  (fb ∉ flags → v = 0%Q) ∧
  (∀ ct, flags !! ct = Some fb →
         (∀ ct', ct < ct' → flags !! ct' ≠ Some fb) → v = item vals ct).

(** The messages of the two validation errors of [add_measurement_noise]
    and of the two of [add_jitter]. *)
Definition msg_scalar : string :=
  "ERROR: If flags is None, efac and equad must be a scalar".
Definition msg_length : string :=
  "ERROR: flags must be same length as efac and equad".
Definition msg_jitter_scalar : string :=
  "ERROR: If flags is None, jitter must be a scalar".
Definition msg_jitter_length : string :=
  "ERROR: flags must be same length as jitter".

Section InjectorVocabulary.
Context `{B : Backend}.

(** The offset the noise formula gives an observation of uncertainty
    [sigma] from the coefficients [e] ([EFAC_i]) and [q] ([EQUAD_i]) and the
    deviates [z1] and [z2]. *)
Definition noise_formula (tnequad : bool) (e q sigma z1 z2 : Q) : Q :=
  (e * sigma * z1 + (if tnequad then q * z2 else e * q * z2))%Q.

(** The coefficients [e] ([EFAC_i]) and [q] ([EQUAD_i]) of the observation
    [toa] in a call whose validation passes, from [efac], [equad] (the value
    of line 70 or 72) and [flags].  Without flags they are the two scalars.
    With flags and two scalars they are 0: the vectors keep the zeros they
    start with.  With flags and per-flag arrays they are the entries selected
    by the [f] flag of the observation; the loop reads that flag only when
    [flags] is not empty. *)
Definition noise_coefficients (efac equad : param)
    (flags : option (list string)) (toa : TOA) (e q : Q) : Prop :=
  match flags with
  | None =>
      ∃ e0 q0, efac = Scalar e0 ∧ equad = Scalar q0 ∧ (e == e0)%Q ∧ (q == q0)%Q
  | Some fl =>
      if isscalar efac && isscalar equad then e = 0%Q ∧ q = 0%Q
      else
        match toa_flags toa !! "f" with
        | Some fb => selected_by_flag fl efac fb e ∧ selected_by_flag fl equad fb q
        | None => fl = [] ∧ e = 0%Q ∧ q = 0%Q
        end
  end.

(** The offsets [dt] of [add_measurement_noise] on the pulsar of [w], from
    the vectors [ev] ([efacvec]) and [qv] ([equadvec]) and the deviates [g]
    the generator holds after the seeding: observation [i] gets
    [ev_i * sigma_i * Z1_i] plus [qv_i * Z2_i] ([tnequad]) or
    [ev_i * qv_i * Z2_i] (default), [Z1] being the first [n] deviates and
    [Z2] the next [n]; [ev_i] and [qv_i] are the coefficients that [efac],
    [log10_equad] and [flags] give the observation. *)
Definition measurement_offsets_spec (efac : param) (log10_equad : option param)
    (flags : option (list string)) (tnequad : bool) (w : world) (g : nat → Q)
    (ev qv dt : list Q) : Prop :=
  let n := length (toas (psr w)) in
  length dt = n ∧
  (∀ i toa, toas (psr w) !! i = Some toa →
     ∃ e q, ev !! i = Some e ∧ qv !! i = Some q ∧
       noise_coefficients efac (equad_of log10_equad) flags toa e q ∧
       dt !! i = Some (noise_formula tnequad e q (toa_error toa)
                         (g i) (g (n + i)%nat))).

(** The offsets [dt] of [add_jitter] from the buckets [inds], the matrix
    [U], the per-bucket vector [ev] ([ecorrvec]) and the deviates [g] the
    generator holds after the seeding: [dt] is [U . (ev * z)] for the first
    [B] deviates [z], one per bucket; an observation of bucket [c] gets
    [ev_c * z_c]. *)
Definition jitter_offsets_spec (inds : list (list nat)) (U : list (list Q))
    (g : nat → Q) (ev dt : list Q) : Prop :=
  let z := g <$> seq 0 (length inds) in
  length ev = length inds ∧
  length dt = length U ∧
  Forall2 Qeq dt (np_dot U (vmul ev z)) ∧
  (∀ r c b, inds !! c = Some b → r ∈ b →
     ∃ x e, dt !! r = Some x ∧ ev !! c = Some e ∧ (x == e * g c)%Q).

(** The per-bucket coefficients [ev] against the supplied [flags] and
    [ecorr]: without flags every bucket has the scalar; with flags and an
    array, bucket [c] has the entry selected by the flag [fs_h] of its first
    member [h], the bucket's representative flag. *)
Definition ecorr_selection (ecorr : param) (flags : option (list string))
    (p : SimulatedPulsar) (inds : list (list nat)) (ev : list Q) : Prop :=
  match flags with
  | None => ∀ c, c < length inds → ∃ e, ev !! c = Some e ∧ (e == item ecorr c)%Q
  | Some fl =>
      isscalar ecorr = false →
      ∀ c b h fb,
        inds !! c = Some b → head b = Some h → flagvals p fl !! h = Some fb →
        ∃ e, ev !! c = Some e ∧ selected_by_flag fl ecorr fb e
  end.

End InjectorVocabulary.

(** ** A backend to evaluate the definitions on concrete inputs *)

Module Sample.

(** [10**x] at the integer part of [x] *)
Definition sample_pow10 (x : Q) : Q := Qpower 10 (Qfloor x).

(** A fixed sequence of "deviates" per seed *)
Definition sample_seeded (s : Z) (k : nat) : Q :=
  inject_Z ((s + 7 * Z.of_nat k) mod 5 - 2).

#[export] Instance sample_backend : Backend := {|
  pow10 := sample_pow10;
  seeded := sample_seeded;
  Residuals := fun ts _ => fmap (fun t => (toa_mjd t - inject_Z (Qfloor (toa_mjd t)))%Q) ts;
  flagvals := fun p _ => fmap (fun t => default "" (toa_flags t !! "f")) (toas p);
  isfile := fun path => bool_decide (path ≠ "");
  get_model := fun path =>
    {| PSR := path; RAJ := Some (1 # 2)%Q; DECJ := Some (1 # 3)%Q;
       ELONG := None; ELAT := None |};
  get_TOAs := fun _ _ => []
|}.

Definition sample_toa (t e : Q) (f : string) : TOA :=
  {| toa_mjd := t; toa_error := e; toa_flags := {[ "f" := f ]} |}.

Definition sample_psr : SimulatedPulsar :=
  {| ephem := "DE440";
     model := {| PSR := "J0000+0000"; RAJ := None; DECJ := None;
                 ELONG := Some 1%Q; ELAT := Some 2%Q |};
     toas := [sample_toa 0 1 "A"; sample_toa (9 # 10) 2 "B"; sample_toa 1 3 "B"];
     residuals := [0; 0; 0]%Q;
     name := "J0000+0000";
     loc := ∅ |}.

Definition sample_world : world :=
  {| rng := sample_seeded 0; psr := sample_psr |}.

End Sample.

(** ** Vocabulary and sample collaborators for the loader and [make_ideal] *)

(** How many of [m] pairs still ahead the loop of [load_from_directories]
    loads under [num_psrs] once it holds [have] pulsars: all of them for
    [None] and for 0, none for a negative number, and otherwise as many as
    bring the list to [num_psrs] pulsars. *)
Definition load_count (num_psrs : option Z) (have m : nat) : nat :=
  match num_psrs with
  | None => m
  | Some z => if (z =? 0)%Z then m else Nat.min (Z.to_nat z - have) m
  end.

(** [p] is the pulsar that [load_pulsar] returns for the pair [pt] of a par
    file and a tim file. *)
Definition loads `{B : Backend} (ephem0 : string) (pt : string * string)
    (p : SimulatedPulsar) : Prop :=
  load_pulsar pt.1 pt.2 ephem0 = inr p.

(** The message of the [else] clause of [load_pulsar]. *)
Definition msg_no_location : string :=
  "No pulsar location information (RAJ/DECJ or ELONG/ELAT) in parfile.".

(** [p <= q] on strings *)
Definition path_le (p q : string) : Prop := String.leb p q = true.

(** The pulsar that [load_pulsar] builds for a model in ecliptic
    coordinates. *)
Definition ecliptic_pulsar `{B : Backend} (parfile timfile ephem0 : string)
    (elong elat : Q) : SimulatedPulsar :=
  {| ephem := ephem0; model := get_model parfile;
     toas := get_TOAs timfile ephem0;
     residuals := Residuals (get_TOAs timfile ephem0) (get_model parfile);
     name := PSR (get_model parfile);
     loc := <["ELONG" := elong]> (<["ELAT" := elat]> ∅) |}.

(** The residuals of a backend are exact for the model [m] when each is the
    distance, in seconds, from the arrival time to a predicted time [pred]
    that does not depend on the arrival time itself. *)
Definition exact_residuals `{B : Backend} (m : TimingModel) (pred : TOA → Q)
    : Prop :=
  (∀ ts, Residuals ts m = (fun t => ((toa_mjd t - pred t) * 86400)%Q) <$> ts) ∧
  (∀ t d, pred {| toa_mjd := d; toa_error := toa_error t;
                  toa_flags := toa_flags t |} = pred t).

Module SampleFiles.

(** A backend whose models are in ecliptic coordinates and whose residuals
    are measured against the value stored in the uncertainty field. *)
#[export] Instance ecliptic_backend : Backend := {|
  pow10 := Sample.sample_pow10;
  seeded := Sample.sample_seeded;
  Residuals := fun ts _ => (fun t => ((toa_mjd t - toa_error t) * 86400)%Q) <$> ts;
  flagvals := fun p _ => fmap (fun t => default "" (toa_flags t !! "f")) (toas p);
  isfile := fun path => true;
  get_model := fun path =>
    {| PSR := path; RAJ := None; DECJ := None;
       ELONG := Some 1%Q; ELAT := Some 2%Q |};
  get_TOAs := fun _ _ => []
|}.

#[export] Instance sample_directories : Directories := {|
  isdir := fun d => bool_decide (d = "par" ∨ d = "tim");
  glob := fun pattern =>
    if bool_decide (pattern = "par/*.par")
    then ["par/B.par"; "par/A.t2.par"; "par/A.par"]
    else if bool_decide (pattern = "tim/*.tim")
    then ["tim/B.tim"; "tim/A.tim"]
    else []
|}.

Definition ecliptic_world : world :=
  {| rng := Sample.sample_seeded 0;
     psr := {| ephem := "DE440";
               model := get_model "par/A.par";
               toas := [Sample.sample_toa 3 1 "A"; Sample.sample_toa 5 4 "B"];
               residuals := [];
               name := "par/A.par";
               loc := ∅ |} |}.

(** The sample world after [make_ideal] with two iterations. *)
Definition ideal_world : world :=
  (make_ideal (B := ecliptic_backend) 2 ecliptic_world).2.

End SampleFiles.

(** ** Properties of [np.argsort] *)

Lemma Qltb_lt (x y : Q) : Qltb x y = true <-> (x < y)%Q.
Proof.
  unfold Qltb. rewrite negb_true_iff. split.
  - intros H. apply Qnot_le_lt. intros Hle.
    apply Qle_bool_iff in Hle. congruence.
  - intros H. destruct (Qle_bool y x) eqn:E; [|done].
    apply Qle_bool_iff in E. exfalso. eapply Qlt_not_le; eauto.
Qed.

Lemma Qltb_ge (x y : Q) : Qltb x y = false <-> (y <= x)%Q.
Proof.
  unfold Qltb. rewrite negb_false_iff. apply Qle_bool_iff.
Qed.

Lemma insert_index_perm times i l : insert_index times i l ≡ₚ i :: l.
Proof.
  induction l as [|j l IH]; simpl; [done|].
  destruct (Qle_bool _ _); [done|].
  rewrite IH. apply Permutation_swap.
Qed.

Lemma argsort_perm times : argsort times ≡ₚ seq 0 (length times).
Proof.
  unfold argsort. induction (seq 0 (length times)) as [|i l IH]; simpl; [done|].
  rewrite insert_index_perm. by constructor.
Qed.

Lemma argsort_length times : length (argsort times) = length times.
Proof. rewrite argsort_perm. apply length_seq. Qed.

Lemma argsort_NoDup times : NoDup (argsort times).
Proof. rewrite argsort_perm. apply NoDup_seq. Qed.

Lemma argsort_lt times i : i ∈ argsort times <-> i < length times.
Proof. rewrite argsort_perm, elem_of_seq. lia. Qed.

Lemma insert_index_sorted times i l :
  Sorted (time_le times) l -> Sorted (time_le times) (insert_index times i l).
Proof.
  induction l as [|j l IH]; simpl; intros Hs.
  - repeat constructor.
  - destruct (Qle_bool _ _) eqn:E.
    + constructor; [done|]. constructor. by apply Qle_bool_iff.
    + inversion Hs as [|? ? Hs' Hhd]; subst.
      constructor; [by apply IH|].
      assert (Hji : time_le times j i).
      { apply Qlt_le_weak, Qnot_le_lt. intros Hle.
        apply Qle_bool_iff in Hle. congruence. }
      destruct l as [|k l]; simpl.
      * by constructor.
      * destruct (Qle_bool (time_at times i) (time_at times k)); constructor.
        -- exact Hji.
        -- by inversion Hhd.
Qed.

Lemma argsort_sorted times : Sorted (time_le times) (argsort times).
Proof.
  unfold argsort. induction (seq 0 (length times)) as [|i l IH]; simpl.
  - constructor.
  - by apply insert_index_sorted.
Qed.

(** ** The bucketing loop and its invariant *)

Lemma append_to_last_snoc (inds : list (list nat)) b i :
  append_to_last (inds ++ [b]) i = inds ++ [b ++ [i]].
Proof.
  induction inds as [|b0 inds IH]; [done|].
  simpl. rewrite IH. by destruct inds.
Qed.

Lemma last_ref_snoc refs a : last_ref (refs ++ [a]) = a.
Proof. unfold last_ref. by rewrite last_snoc. Qed.

Section Buckets.
Variables (times : list Q) (dt : Q).
Abbreviation bucket_inv := (bucket_inv times dt).
Abbreviation anchored := (anchored times dt).

Lemma bucket_inv_init i0 :
  bucket_inv [i0] ([time_at times i0], [[i0]]).
Proof.
  split; simpl.
  - done.
  - repeat constructor. exists i0, []. by repeat split.
  - intros k a b' h' _ Hb. by destruct k.
Qed.

Lemma bucket_inv_snoc L st :
  bucket_inv L st → L ≠ [] →
  ∃ refs a inds b, st = (refs ++ [a], inds ++ [b]) ∧
                   length refs = length inds ∧
                   Forall2 anchored refs inds ∧ anchored a b.
Proof.
  destruct st as [refsA indsA]. intros [Hc Ha _] HL. simpl in *.
  destruct indsA as [|b inds _] using rev_ind.
  { simpl in Hc. congruence. }
  apply Forall2_app_inv_r in Ha as (refs & l2 & H1 & H2 & ->).
  apply Forall2_cons_inv_r in H2 as (a & l3 & Hab & H3 & ->).
  apply Forall2_nil_inv_r in H3 as ->.
  exists refs, a, inds, b. repeat split; try done.
  by eapply Forall2_length.
Qed.

Lemma bucket_step_inv L st i :
  bucket_inv L st → L ≠ [] →
  bucket_inv (L ++ [i]) (bucket_step times dt st i).
Proof.
  intros Hinv HL.
  destruct (bucket_inv_snoc L st Hinv HL)
    as (refs & a & inds & b & -> & Hlen & Hall & Hab).
  destruct Hinv as [Hc _ Hgap]. simpl in *.
  unfold bucket_step. rewrite last_ref_snoc.
  destruct Hab as (h & rest & -> & Ha & Hrest).
  destruct (Qltb (time_at times i - a) dt) eqn:E.
  - apply Qltb_lt in E. rewrite append_to_last_snoc.
    split; simpl.
    + rewrite concat_app in *. simpl in *. rewrite !app_nil_r in *.
      rewrite <- Hc. by rewrite <- app_assoc.
    + apply Forall2_app; [done|]. repeat constructor.
      exists h, (rest ++ [i]). repeat split; [done|].
      apply Forall_app. split; [done|]. by repeat constructor.
    + intros k a' b' h' Hk Hb' Hh'.
      apply lookup_app_Some in Hb' as [Hb'|[Hge Hb']].
      * eapply Hgap; [done| |done]. by apply lookup_app_l_Some.
      * apply list_lookup_singleton_Some in Hb' as [Hz <-].
        simpl in Hh'. eapply (Hgap k a' (h :: rest)); [done| |done].
        apply list_lookup_middle. lia.
  - apply Qltb_ge in E.
    split; simpl.
    + rewrite concat_app. simpl. by rewrite Hc.
    + apply Forall2_app.
      * apply Forall2_app; [done|]. by repeat constructor; exists h, rest.
      * repeat constructor. exists i, []. by repeat split.
    + intros k a' b' h' Hk Hb' Hh'.
      apply lookup_app_Some in Hb' as [Hb'|[Hge Hb']].
      * eapply Hgap; [|done|done].
        apply lookup_app_Some in Hk as [Hk|[Hge Hk]]; [done|].
        apply lookup_lt_Some in Hb'. rewrite length_app in Hb', Hge.
        simpl in *. lia.
      * apply list_lookup_singleton_Some in Hb' as [Hz <-].
        simpl in Hh'. injection Hh' as <-.
        rewrite length_app in *. simpl in *.
        assert (k = length refs) as -> by lia.
        rewrite <- app_assoc in Hk. simpl in Hk.
        rewrite list_lookup_middle in Hk by done. by injection Hk as <-.
Qed.

Lemma bucket_loop_inv rest L st :
  bucket_inv L st → L ≠ [] →
  bucket_inv (L ++ rest) (foldl (bucket_step times dt) st rest).
Proof.
  revert L st. induction rest as [|i rest IH]; intros L st Hinv HL; simpl.
  - by rewrite app_nil_r.
  - replace (L ++ i :: rest) with ((L ++ [i]) ++ rest)
      by (by rewrite <- app_assoc).
    apply IH; [by apply bucket_step_inv|].
    by destruct L.
Qed.

Lemma bucketize_inv isort st :
  bucketize times dt isort = Some st → bucket_inv isort st.
Proof.
  destruct isort as [|i0 rest]; simpl; [done|].
  intros [= <-]. apply (bucket_loop_inv rest [i0]); [|done].
  apply bucket_inv_init.
Qed.

End Buckets.

(** ** The mapping matrix is the incidence matrix of the buckets *)

Lemma enumerate_snoc {A : Type} (l : list A) (x : A) :
  enumerate (l ++ [x]) = enumerate l ++ [(length l, x)].
Proof.
  unfold enumerate. rewrite length_app. simpl.
  rewrite seq_app. simpl.
  rewrite zip_with_app by (by rewrite length_seq). done.
Qed.

Lemma set_rows_lookup U l c r :
  set_rows U l c !! r
  = if bool_decide (r ∈ l) then (fun row => <[c := 1%Q]> row) <$> U !! r
    else U !! r.
Proof.
  unfold set_rows. revert U. induction l as [|a l IH]; intros U; simpl.
  - done.
  - rewrite IH. destruct (decide (r = a)) as [->|Hne].
    + rewrite list_lookup_alter_eq.
      rewrite (bool_decide_eq_true_2 (a ∈ a :: l)) by left.
      case_bool_decide; [|done].
      destruct (U !! a); simpl; [|done].
      by rewrite list_insert_insert_eq.
    + rewrite list_lookup_alter_ne by done.
      case_bool_decide as H1; case_bool_decide as H2; try done.
      * exfalso. apply H2. by right.
      * exfalso. apply elem_of_cons in H2 as [?|?]; done.
Qed.

Lemma cell_snoc pre b r c :
  cell (pre ++ [b]) r c
  = if decide (c = length pre)
    then (if bool_decide (r ∈ b) then 1%Q else 0%Q)
    else cell pre r c.
Proof.
  unfold cell. case_decide as Hc.
  - subst. by rewrite list_lookup_middle.
  - destruct (decide (c < length pre)).
    + by rewrite lookup_app_l.
    + rewrite !lookup_ge_None_2; [done|lia|].
      rewrite length_app. simpl. lia.
Qed.

Lemma incidence_lookup n m inds r :
  r < n → incidence n m inds !! r = Some (cell inds r <$> seq 0 m).
Proof.
  intros Hr. unfold incidence.
  by rewrite list_lookup_fmap, lookup_seq_lt.
Qed.

Lemma incidence_lookup_ge n m inds r :
  n ≤ r → incidence n m inds !! r = None.
Proof.
  intros Hr. unfold incidence.
  by rewrite list_lookup_fmap, lookup_seq_ge.
Qed.

Lemma incidence_entry n m inds r c :
  r < n → c < m →
  incidence n m inds !! r ≫= (fun row => row !! c) = Some (cell inds r c).
Proof.
  intros Hr Hc. rewrite incidence_lookup by done. simpl.
  by rewrite list_lookup_fmap, lookup_seq_lt.
Qed.

Lemma incidence_nil n m : incidence n m [] = replicate n (replicate m 0%Q).
Proof.
  apply list_eq. intros r. destruct (decide (r < n)).
  - rewrite incidence_lookup, lookup_replicate_2 by done. f_equal.
    apply list_eq. intros c. destruct (decide (c < m)).
    + by rewrite list_lookup_fmap, lookup_seq_lt, lookup_replicate_2.
    + rewrite list_lookup_fmap, lookup_seq_ge by lia.
      symmetry. apply lookup_replicate_None. lia.
  - rewrite incidence_lookup_ge by lia.
    symmetry. apply lookup_replicate_None. lia.
Qed.

Lemma set_rows_incidence n m pre b :
  length pre < m →
  set_rows (incidence n m pre) b (length pre) = incidence n m (pre ++ [b]).
Proof.
  intros Hm. apply list_eq. intros r. rewrite set_rows_lookup.
  destruct (decide (r < n)).
  - rewrite !incidence_lookup by done.
    assert (Hrow : ∀ v : Q,
      (if bool_decide (r ∈ b) then 1%Q else 0%Q) = v →
      (if bool_decide (r ∈ b) then <[length pre := 1%Q]> (cell pre r <$> seq 0 m)
       else cell pre r <$> seq 0 m) = cell (pre ++ [b]) r <$> seq 0 m).
    { intros v _. apply list_eq. intros c.
      destruct (decide (c < m)).
      - rewrite (list_lookup_fmap (cell (pre ++ [b]) r)), lookup_seq_lt by done.
        simpl. rewrite cell_snoc.
        case_bool_decide.
        + case_decide as Hc.
          * subst c. apply list_lookup_insert_eq.
            by rewrite length_fmap, length_seq.
          * rewrite list_lookup_insert_ne by done.
            by rewrite list_lookup_fmap, lookup_seq_lt.
        + rewrite list_lookup_fmap, lookup_seq_lt by done. simpl.
          case_decide; [|done]. subst. unfold cell.
          by rewrite lookup_ge_None_2.
      - rewrite (list_lookup_fmap (cell (pre ++ [b]) r)), lookup_seq_ge by lia.
        simpl. apply lookup_ge_None_2.
        case_bool_decide; rewrite ?length_insert, length_fmap, length_seq; lia. }
    case_bool_decide; simpl; f_equal; by eapply Hrow.
  - rewrite !incidence_lookup_ge by lia. by case_bool_decide.
Qed.

Lemma fill_incidence n m pre :
  length pre ≤ m →
  foldl (fun U '(i, l) => set_rows U l i) (incidence n m []) (enumerate pre)
  = incidence n m pre.
Proof.
  induction pre as [|b pre IH] using rev_ind; intros Hm.
  - done.
  - rewrite length_app in Hm. simpl in Hm.
    rewrite enumerate_snoc, foldl_snoc, IH by lia.
    apply set_rows_incidence. lia.
Qed.

Lemma mapping_matrix_incidence n inds :
  mapping_matrix n inds = incidence n (length inds) inds.
Proof.
  unfold mapping_matrix. rewrite <- incidence_nil. by apply fill_incidence.
Qed.

(** ** Buckets that partition the indices *)

Lemma elem_of_concat (ls : list (list nat)) x :
  x ∈ concat ls ↔ ∃ c b, ls !! c = Some b ∧ x ∈ b.
Proof.
  induction ls as [|l ls IH]; simpl.
  - split; [by intros ?%elem_of_nil|by intros (c & b & ? & _)].
  - rewrite elem_of_app, IH. split.
    + intros [H|(c & b & Hc & Hb)]; [by exists 0, l|by exists (S c), b].
    + intros ([|c] & b & Hc & Hb); simpl in Hc.
      * left. congruence.
      * right. eauto.
Qed.

Lemma concat_bucket_unique (ls : list (list nat)) c1 c2 b1 b2 x :
  NoDup (concat ls) →
  ls !! c1 = Some b1 → ls !! c2 = Some b2 → x ∈ b1 → x ∈ b2 → c1 = c2.
Proof.
  revert c1 c2. induction ls as [|l ls IH]; intros c1 c2 Hnd H1 H2 Hx1 Hx2.
  - done.
  - simpl in Hnd. apply NoDup_app in Hnd as (_ & Hdisj & Hnd).
    destruct c1 as [|c1], c2 as [|c2]; simpl in *.
    + done.
    + exfalso. injection H1 as ->. apply (Hdisj x Hx1).
      apply elem_of_concat. eauto.
    + exfalso. injection H2 as ->. apply (Hdisj x Hx2).
      apply elem_of_concat. eauto.
    + f_equal. by apply IH.
Qed.

Lemma unit_vec_lookup m c c' :
  c < m → c' < m →
  unit_vec m c !! c' = Some (if decide (c' = c) then 1%Q else 0%Q).
Proof.
  intros Hc Hc'. unfold unit_vec. case_decide as E.
  - subst. apply list_lookup_insert_eq. by rewrite length_replicate.
  - rewrite list_lookup_insert_ne by done. by apply lookup_replicate_2.
Qed.

Lemma unit_vec_length m c : length (unit_vec m c) = m.
Proof. unfold unit_vec. by rewrite length_insert, length_replicate. Qed.

Lemma incidence_row_unit inds r c b :
  NoDup (concat inds) → inds !! c = Some b → r ∈ b →
  cell inds r <$> seq 0 (length inds) = unit_vec (length inds) c.
Proof.
  intros Hnd Hc Hr. pose proof (lookup_lt_Some _ _ _ Hc) as Hlt.
  apply list_eq. intros c'. destruct (decide (c' < length inds)) as [Hc'|Hc'].
  - rewrite list_lookup_fmap, lookup_seq_lt, unit_vec_lookup by done.
    simpl. f_equal. unfold cell. case_decide as E.
    + subst. rewrite Hc. simpl. by rewrite bool_decide_eq_true_2.
    + rewrite bool_decide_eq_false_2; [done|]. intros Hin.
      destruct (inds !! c') as [b'|] eqn:Hb'; simpl in Hin.
      * apply E. by eapply (concat_bucket_unique inds c' c b' b r).
      * by apply elem_of_nil in Hin.
  - rewrite list_lookup_fmap, lookup_seq_ge by lia. simpl.
    symmetry. apply lookup_ge_None_2. rewrite unit_vec_length. lia.
Qed.

Lemma np_sum_elem_le (l : list Q) x :
  Forall (fun y => (0 <= y)%Q) l → x ∈ l → (x <= np_sum l)%Q.
Proof.
  induction 1 as [|y l Hy Hl IH]; intros Hx.
  - by apply elem_of_nil in Hx.
  - assert (0 <= np_sum l)%Q as Hs.
    { clear -Hl. induction Hl as [|z l Hz Hl IH]; simpl; [lra|].
      unfold np_sum in *. simpl. lra. }
    unfold np_sum in *. simpl.
    apply elem_of_cons in Hx as [->|Hx]; [lra|].
    specialize (IH Hx). lra.
Qed.

Lemma cell_nonneg inds r c : (0 <= cell inds r c)%Q.
Proof. unfold cell. case_bool_decide; lra. Qed.

Lemma incidence_column n m inds c :
  c < m → column (incidence n m inds) c = (fun r => cell inds r c) <$> seq 0 n.
Proof.
  intros Hc. unfold column, incidence. rewrite <- list_fmap_compose.
  apply list_fmap_ext. intros i r _. simpl.
  by rewrite list_lookup_fmap, lookup_seq_lt.
Qed.

Lemma incidence_col_sum n m inds c b h :
  c < m → inds !! c = Some b → h ∈ b → h < n →
  (1 <= col_sum (incidence n m inds) c)%Q.
Proof.
  intros Hc Hb Hh Hn. unfold col_sum. rewrite incidence_column by done.
  apply np_sum_elem_le.
  - apply Forall_fmap, Forall_forall. intros r _. apply cell_nonneg.
  - apply list_elem_of_fmap. exists h. split.
    + unfold cell. rewrite Hb. simpl. by rewrite bool_decide_eq_true_2.
    + apply elem_of_seq. lia.
Qed.

(** ** The result of [quantize_fast] *)

Lemma concat_adjacent (ls : list (list nat)) p i j :
  Forall (fun b => b ≠ []) ls →
  concat ls !! p = Some i → concat ls !! S p = Some j →
  (∃ c b, ls !! c = Some b ∧ i ∈ b ∧ j ∈ b) ∨
  (∃ c b b', ls !! c = Some b ∧ ls !! S c = Some b' ∧ i ∈ b ∧ head b' = Some j).
Proof.
  intros Hne. revert p. induction Hne as [|l ls Hl Hne IH]; intros p Hi Hj.
  - done.
  - simpl in Hi, Hj.
    destruct (decide (S p < length l)) as [Hlt|Hge].
    + left. exists 0, l. rewrite lookup_app_l in Hi, Hj by lia.
      eauto using list_elem_of_lookup_2.
    + destruct (decide (S p = length l)) as [Heq|Hne'].
      * right. rewrite lookup_app_l in Hi by lia.
        rewrite lookup_app_r in Hj by lia.
        replace (S p - length l) with 0 in Hj by lia.
        destruct Hne as [|b' ls Hb' _]; [done|].
        exists 0, l, b'. repeat split; eauto using list_elem_of_lookup_2.
        destruct b'; [done|]. simpl in Hj. simpl. congruence.
      * rewrite lookup_app_r in Hi, Hj by lia.
        replace (S p - length l) with (S (p - length l)) in Hj by lia.
        destruct (IH _ Hi Hj) as [(c & b & ? & ? & ?)|(c & b & b' & ? & ? & ? & ?)].
        -- left. by exists (S c), b.
        -- right. by exists (S c), b, b'.
Qed.

Lemma anchored_nonempty times dt refs inds :
  Forall2 (anchored times dt) refs inds → Forall (fun b => b ≠ []) inds.
Proof.
  induction 1 as [|a b refs inds (h & rest & -> & _) _ IH]; by constructor.
Qed.

Lemma anchored_member times dt a b i :
  (0 < dt)%Q → anchored times dt a b → i ∈ b → (time_at times i - a < dt)%Q.
Proof.
  intros Hdt (h & rest & -> & -> & Hrest) Hi.
  apply elem_of_cons in Hi as [->|Hi].
  - lra.
  - by eapply Forall_forall in Hrest.
Qed.

Lemma bucketize_some times dt :
  times ≠ [] → ∃ refs inds, bucketize times dt (argsort times) = Some (refs, inds).
Proof.
  intros Hne. pose proof (argsort_length times) as Hlen.
  destruct (argsort times) as [|i0 rest] eqn:E.
  - destruct times; [done|]. simpl in Hlen. lia.
  - simpl. destruct (foldl _ _ rest) as [refs inds]. by exists refs, inds.
Qed.

Lemma quantize_fast_inr times flags dt t f U :
  quantize_fast times flags dt = inr (t, f, U) →
  ∃ refs inds,
    bucketize times dt (argsort times) = Some (refs, inds) ∧
    t = (fun ind => np_mean (time_at times <$> ind)) <$> inds ∧
    f = (fl ← flags; bucket_flags fl inds) ∧
    U = mapping_matrix (length times) inds.
Proof.
  unfold quantize_fast.
  destruct (bucketize _ _ _) as [[refs inds]|]; [|done].
  intros H. exists refs, inds. split; [done|].
  destruct flags as [fl|]; simpl.
  - destruct (bucket_flags fl inds); [|done]. by injection H as <- <- <-.
  - by injection H as <- <- <-.
Qed.

Lemma mapping_matrix_partition n inds refs times dt :
  Forall2 (anchored times dt) refs inds →
  concat inds ≡ₚ seq 0 n →
  partition_matrix n inds (mapping_matrix n inds).
Proof.
  intros Hanch Hperm. rewrite mapping_matrix_incidence.
  assert (Hnd : NoDup (concat inds)) by (rewrite Hperm; apply NoDup_seq).
  repeat split.
  - unfold incidence. by rewrite length_fmap, length_seq.
  - intros r row Hrow.
    destruct (decide (r < n)) as [Hr|Hr];
      [|by rewrite incidence_lookup_ge in Hrow by lia].
    rewrite incidence_lookup in Hrow by done. injection Hrow as <-.
    assert (r ∈ concat inds) as (c & b & Hc & Hb)%elem_of_concat.
    { rewrite Hperm. apply elem_of_seq. lia. }
    exists c, b. repeat split; [done..|].
    by eapply incidence_row_unit.
  - intros c Hc.
    destruct (lookup_lt_is_Some_2 inds c Hc) as [b Hb].
    pose proof (anchored_nonempty _ _ _ _ Hanch) as Hne.
    eapply Forall_lookup_1 in Hne; [|done].
    destruct b as [|h b]; [done|].
    eapply (incidence_col_sum _ _ _ _ _ h); [done|done|left|].
    assert (h ∈ concat inds) as Hin.
    { apply elem_of_concat. exists c, (h :: b). split; [done|left]. }
    rewrite Hperm in Hin. apply elem_of_seq in Hin. lia.
  - done.
Qed.

Lemma bucketize_partition times dt refs inds :
  bucketize times dt (argsort times) = Some (refs, inds) →
  Forall2 (anchored times dt) refs inds ∧
  concat inds ≡ₚ seq 0 (length times) ∧
  partition_matrix (length times) inds (mapping_matrix (length times) inds).
Proof.
  intros Hb. apply bucketize_inv in Hb as [Hc Ha _]. simpl in *.
  assert (concat inds ≡ₚ seq 0 (length times)) as Hperm.
  { rewrite Hc. apply argsort_perm. }
  split; [done|]. split; [done|]. by eapply mapping_matrix_partition.
Qed.




(** ** The claims about the quantizer *)

(** C3.  For a non-empty [times] (and any [dt], positive or not)
    [quantize_fast] returns, and its matrix [U] has one row per observation,
    each row being the unit vector of the one bucket that contains the
    observation (exactly one 1 per row); every column sums to at least 1; the
    bucket member lists together are a permutation of [0 .. N-1] (a partition
    without overlap).  With flags the same [U] is returned unless a flag
    lookup fails.  A single observation gives the one bucket [[0]] and
    [U = [[1]]]. *)
Theorem quantize_fast_partition (times : list Q) (dt : Q) :
  times ≠ [] →
  ∃ refs inds t U,
    bucketize times dt (argsort times) = Some (refs, inds) ∧
    quantize_fast times None dt = inr (t, None, U) ∧
    (∀ fl, quantize_fast times (Some fl) dt = inl IndexError ∨
           ∃ fs, quantize_fast times (Some fl) dt = inr (t, Some fs, U)) ∧
    partition_matrix (length times) inds U ∧
    (∀ x, times = [x] → inds = [[0]] ∧ U = [[1%Q]]).
Proof.
  intros Hne. destruct (bucketize_some times dt Hne) as (refs & inds & Hb).
  exists refs, inds, ((fun ind => np_mean (time_at times <$> ind)) <$> inds),
    (mapping_matrix (length times) inds).
  split; [done|]. split; [|split; [|split]].
  - unfold quantize_fast. by rewrite Hb.
  - intros fl. unfold quantize_fast. rewrite Hb.
    destruct (bucket_flags fl inds) as [fs|]; [right; by exists fs|by left].
  - by apply (bucketize_partition times dt refs inds).
  - intros x ->. simpl in Hb. injection Hb as <- <-. done.
Qed.

Lemma quantize_fast_partition_witness :
  ∃ refs inds t U,
    bucketize [0; 9 # 10; 1]%Q 1 (argsort [0; 9 # 10; 1]%Q) = Some (refs, inds) ∧
    quantize_fast [0; 9 # 10; 1]%Q None 1 = inr (t, None, U) ∧
    (∀ fl, quantize_fast [0; 9 # 10; 1]%Q (Some fl) 1 = inl IndexError ∨
           ∃ fs, quantize_fast [0; 9 # 10; 1]%Q (Some fl) 1 = inr (t, Some fs, U)) ∧
    partition_matrix 3 inds U ∧
    (∀ x, [0; 9 # 10; 1]%Q = [x] → inds = [[0]] ∧ U = [[1%Q]]).
Proof. apply (quantize_fast_partition [0; 9 # 10; 1]%Q 1). discriminate. Defined.

Lemma bucketize_greedy_rule times dt refs inds :
  (0 < dt)%Q →
  bucketize times dt (argsort times) = Some (refs, inds) →
  greedy_rule times dt (argsort times) refs inds.
Proof.
  intros Hdt Hb. apply bucketize_inv in Hb as [Hc Ha Hgap]. simpl in *.
  intros p i j k a b Hi Hj Hk Hbk Hib.
  assert (anchored times dt a b) as Hab.
  { by eapply Forall2_lookup_lr. }
  split; [by apply anchored_member|].
  intros Hlt. rewrite <- Hc in Hi, Hj.
  assert (NoDup (concat inds)) as Hnd.
  { rewrite Hc. apply argsort_NoDup. }
  destruct (concat_adjacent inds p i j (anchored_nonempty _ _ _ _ Ha) Hi Hj)
    as [(c & b0 & Hc0 & Hi0 & Hj0)|(c & b0 & b' & Hc0 & Hc' & Hi0 & Hh)].
  - pose proof (concat_bucket_unique inds c k b0 b i Hnd Hc0 Hbk Hi0 Hib).
    subst c. congruence.
  - pose proof (concat_bucket_unique inds c k b0 b i Hnd Hc0 Hbk Hi0 Hib).
    subst c. pose proof (Hgap k a b' j Hk Hc' Hh). lra.
Qed.

(** C1, the claim as stated, fails on its last part.  With
    [times = [0; 0.9; 1]] and [dt = 1] the buckets are [[0; 1]] and [[2]]:
    the last member of the first bucket is at 0.9, the first member of the
    second at 1, and their gap 0.1 is below [dt]. *)
Lemma quantize_fast_last_member_gap_fails :
  bucketize [0; 9 # 10; 1]%Q 1 (argsort [0; 9 # 10; 1]%Q)
  = Some ([0; 1]%Q, [[0; 1]; [2]]) ∧
  ¬ last_to_first_gap [0; 9 # 10; 1]%Q 1 [[0; 1]; [2]].
Proof.
  split; [reflexivity|].
  intros H. specialize (H 0 [0; 1] [2] 1 2 eq_refl eq_refl eq_refl eq_refl).
  vm_compute in H. by apply H.
Qed.

(** C1, amended.  For every [times] and [dt > 0], the buckets that
    [quantize_fast] builds obey the greedy rule: an observation joins the
    bucket of its predecessor in time order iff its time minus that bucket's
    anchor is below [dt], the anchor being the time of the observation that
    opened the bucket (neither a running mean nor the last member).  Hence
    every member's gap to its bucket's anchor is below [dt], and the gap from
    the anchor of bucket [k] to the first member of bucket [k+1] is at least
    [dt]. *)
Theorem quantize_fast_contiguity (times : list Q) (dt : Q) refs inds :
  (0 < dt)%Q →
  bucketize times dt (argsort times) = Some (refs, inds) →
  quantize_fast times None dt
  = inr ((fun ind => np_mean (time_at times <$> ind)) <$> inds, None,
         mapping_matrix (length times) inds) ∧
  greedy_rule times dt (argsort times) refs inds ∧
  Forall2 (anchored times dt) refs inds ∧
  (∀ k a b i, refs !! k = Some a → inds !! k = Some b → i ∈ b →
              (time_at times i - a < dt)%Q) ∧
  anchor_to_first_gap times dt refs inds.
Proof.
  intros Hdt Hb.
  split; [unfold quantize_fast; by rewrite Hb|].
  split; [by apply bucketize_greedy_rule|].
  pose proof (bucketize_inv _ _ _ _ Hb) as [_ Ha Hgap]. simpl in *.
  split; [done|]. split; [|exact Hgap].
  intros k a b i Hk Hbk Hi. eapply anchored_member; [done| |done].
  by eapply Forall2_lookup_lr.
Qed.

Lemma quantize_fast_contiguity_witness :
  quantize_fast [0; 9 # 10; 1]%Q None 1
  = inr ((fun ind => np_mean (time_at [0; 9 # 10; 1]%Q <$> ind))
           <$> [[0; 1]; [2]], None,
         mapping_matrix 3 [[0; 1]; [2]]) ∧
  greedy_rule [0; 9 # 10; 1]%Q 1 (argsort [0; 9 # 10; 1]%Q)
    [0; 1]%Q [[0; 1]; [2]] ∧
  Forall2 (anchored [0; 9 # 10; 1]%Q 1) [0; 1]%Q [[0; 1]; [2]] ∧
  (∀ k a b i, [0; 1]%Q !! k = Some a → [[0; 1]; [2]] !! k = Some b → i ∈ b →
              (time_at [0; 9 # 10; 1]%Q i - a < 1)%Q) ∧
  anchor_to_first_gap [0; 9 # 10; 1]%Q 1 [0; 1]%Q [[0; 1]; [2]].
Proof.
  apply (quantize_fast_contiguity [0; 9 # 10; 1]%Q 1 [0; 1]%Q [[0; 1]; [2]]);
    reflexivity.
Defined.




(** ** Lemmas on the array operations *)

Lemma np_sum_cons x xs : np_sum (x :: xs) = (x + np_sum xs)%Q.
Proof. done. Qed.

#[local] Arguments np_sum : simpl never.

Lemma np_sum_Qeq (xs ys : list Q) :
  Forall2 Qeq xs ys → (np_sum xs == np_sum ys)%Q.
Proof.
  induction 1 as [|x y xs ys Hxy _ IH]; [done|].
  rewrite !np_sum_cons. by rewrite Hxy, IH.
Qed.

Lemma vmul_assoc_Qeq (u e z : list Q) :
  Forall2 Qeq (vmul (vmul u e) z) (vmul u (vmul e z)).
Proof.
  unfold vmul. revert e z. induction u as [|x u IH]; intros e z; [by constructor|].
  destruct e as [|y e]; [by constructor|].
  destruct z as [|v z]; [by constructor|].
  simpl. constructor; [|apply IH]. symmetry. apply Qmult_assoc.
Qed.

Lemma np_sum_zeros (m : nat) (v : list Q) :
  (np_sum (vmul (replicate m 0%Q) v) == 0)%Q.
Proof.
  unfold vmul. revert v. induction m as [|m IH]; intros v; [done|].
  destruct v as [|x v]; [done|].
  simpl. rewrite np_sum_cons, IH. lra.
Qed.

Lemma np_sum_unit_vec (m c : nat) (v : list Q) x :
  length v = m → v !! c = Some x →
  (np_sum (vmul (unit_vec m c) v) == x)%Q.
Proof.
  unfold unit_vec. revert c v.
  induction m as [|m IH]; intros c v Hlen Hc.
  - destruct v; [done|simpl in Hlen; lia].
  - destruct v as [|y v]; [done|]. simpl in Hlen.
    destruct c as [|c]; simpl in *.
    + injection Hc as ->. unfold vmul. simpl.
      rewrite np_sum_cons. fold (vmul (replicate m 0%Q) v).
      rewrite np_sum_zeros. lra.
    + unfold vmul. simpl. rewrite np_sum_cons.
      fold (vmul (<[c := 1%Q]> (replicate m 0%Q)) v).
      rewrite (IH c v) by (done || lia). lra.
Qed.

Lemma mask_assign_lookup vec ind v b x (m : bool) :
  vec !! b = Some x → ind !! b = Some m →
  mask_assign vec ind v !! b = Some (if m then v else x).
Proof.
  intros Hx Hm. unfold mask_assign. rewrite lookup_zip_with, Hx. simpl.
  by rewrite Hm.
Qed.

Lemma mask_assign_length vec ind v :
  length ind = length vec → length (mask_assign vec ind v) = length vec.
Proof. intros H. unfold mask_assign. rewrite length_zip_with. lia. Qed.

Lemma flag_mask_length flag fs : length (flag_mask flag fs) = length fs.
Proof. unfold flag_mask. by rewrite length_fmap. Qed.

Lemma scatter_ecorr_length flags f vals vec :
  length f = length vec → length (scatter_ecorr flags f vals vec) = length vec.
Proof.
  intros Hlen. unfold scatter_ecorr.
  induction flags as [|fl flags IH] using rev_ind; [done|].
  rewrite enumerate_snoc, foldl_snoc.
  rewrite mask_assign_length; [done|].
  by rewrite flag_mask_length, IH.
Qed.

Lemma scatter_ecorr_is_Some flags f vals vec b fb x :
  f !! b = Some fb → vec !! b = Some x →
  is_Some (scatter_ecorr flags f vals vec !! b).
Proof.
  intros Hf Hx. unfold scatter_ecorr.
  induction flags as [|fl flags [y IH]] using rev_ind; [by eexists|].
  rewrite enumerate_snoc, foldl_snoc.
  erewrite mask_assign_lookup; [by eexists|exact IH|].
  unfold flag_mask. by rewrite list_lookup_fmap, Hf.
Qed.

(** The loop over the supplied flags leaves, at an entry whose own flag is
    [fb], the value paired with the last occurrence of [fb] among the
    supplied flags, and the initial value when [fb] is not among them. *)
Lemma scatter_ecorr_lookup flags f vals vec b fb x :
  f !! b = Some fb → vec !! b = Some x →
  (fb ∉ flags → scatter_ecorr flags f vals vec !! b = Some x) ∧
  (∀ ct, flags !! ct = Some fb →
         (∀ ct', ct < ct' → flags !! ct' ≠ Some fb) →
         scatter_ecorr flags f vals vec !! b = Some (item vals ct)).
Proof.
  intros Hf Hx.
  induction flags as [|fl flags IH] using rev_ind.
  - split; [done|]. by intros ct Hct.
  - destruct (scatter_ecorr_is_Some flags f vals vec b fb x Hf Hx) as [y Hy].
    unfold scatter_ecorr in *. rewrite enumerate_snoc, foldl_snoc.
    destruct IH as [IH1 IH2].
    assert (flag_mask fl f !! b = Some (bool_decide (fl = fb))) as Hm.
    { unfold flag_mask. by rewrite list_lookup_fmap, Hf. }
    erewrite mask_assign_lookup; [|exact Hy|exact Hm].
    split.
    + intros Hnot. rewrite not_elem_of_app, not_elem_of_cons in Hnot.
      destruct Hnot as [Hnot [Hne _]].
      rewrite bool_decide_eq_false_2 by done.
      rewrite <- Hy. by apply IH1.
    + intros ct Hct Hlast.
      destruct (decide (fl = fb)) as [->|Hne].
      * rewrite bool_decide_eq_true_2 by done.
        destruct (decide (ct = length flags)) as [->|Hd]; [done|].
        exfalso. apply lookup_lt_Some in Hct as Hlt.
        rewrite length_app in Hlt. simpl in Hlt.
        apply (Hlast (length flags)); [lia|].
        by rewrite list_lookup_middle.
      * rewrite bool_decide_eq_false_2 by done.
        assert (ct < length flags) as Hlt.
        { apply lookup_lt_Some in Hct as Hlt.
          rewrite length_app in Hlt. simpl in Hlt.
          destruct (decide (ct = length flags)) as [->|]; [|lia].
          rewrite list_lookup_middle in Hct by done. congruence. }
        rewrite lookup_app_l in Hct by done.
        rewrite <- Hy. apply IH2; [done|]. intros ct' Hlt' Hct'.
        apply (Hlast ct' Hlt'). by apply lookup_app_l_Some.
Qed.

(** ** Running the injector *)

Ltac run_M :=
  unfold mbind, M_bind, mret, M_ret, raise, lift_exn, get_psr, put_psr,
    np_random_randn in *;
  simpl in *.

Section InjectorRun.
Context `{B : Backend}.

Lemma maybe_seed_psr seed w : psr (maybe_seed seed w).2 = psr w.
Proof. by destruct seed. Qed.

Lemma maybe_seed_ok seed w : maybe_seed seed w = (inr tt, (maybe_seed seed w).2).
Proof. by destruct seed. Qed.

Lemma table_flags_length p fs : table_flags p = inr fs → length fs = length (toas p).
Proof.
  unfold table_flags. destruct (mapM _ _) as [fs'|] eqn:E; [|done].
  intros [= <-]. apply mapM_Some_1, Forall2_length in E. done.
Qed.

Lemma scatter_flags_ok p fl efac equad vecs w fs :
  table_flags p = inr fs →
  scatter_flags p fl efac equad vecs w
  = (inr (scatter_ecorr fl fs efac vecs.1, scatter_ecorr fl fs equad vecs.2), w).
Proof.
  intros Hfs. unfold scatter_flags, scatter_ecorr.
  induction fl as [|flag fl IH] using rev_ind.
  - by destruct vecs.
  - rewrite enumerate_snoc, !foldl_snoc. run_M. rewrite IH. simpl.
    by rewrite Hfs.
Qed.

Lemma scatter_flags_world p fl efac equad vecs w r w' :
  scatter_flags p fl efac equad vecs w = (r, w') → w' = w.
Proof.
  destruct (table_flags p) as [e|fs] eqn:E.
  - unfold scatter_flags. revert r.
    induction fl as [|flag fl IH] using rev_ind; intros r.
    + by intros [= _ <-].
    + rewrite enumerate_snoc, foldl_snoc. run_M.
      match goal with
      | |- context [foldl ?f ?a ?l w] =>
          destruct (foldl f a l w) as [[e'|[ev qv]] w1] eqn:F
      end.
      * intros [= _ <-]. by eapply IH.
      * rewrite E. intros [= _ <-]. by eapply IH.
  - rewrite (scatter_flags_ok _ _ _ _ _ _ _ E). by intros [= _ <-].
Qed.

Lemma table_flags_lookup p fs i toa :
  table_flags p = inr fs → toas p !! i = Some toa →
  ∃ fb, toa_flags toa !! "f" = Some fb ∧ fs !! i = Some fb.
Proof.
  unfold table_flags. destruct (mapM _ _) as [fs'|] eqn:E; [|done].
  intros [= <-] Hi. apply mapM_Some_1 in E.
  destruct (Forall2_lookup_l _ _ _ _ _ E Hi) as (fb & Hfb & Hy). eauto.
Qed.

Lemma scatter_flags_fail_gen p fl efac equad vecs w e :
  table_flags p = inl e →
  scatter_flags p fl efac equad vecs w
  = (match fl with [] => inr vecs | _ :: _ => inl e end, w).
Proof.
  intros Ht. induction fl as [|flag fl IH] using rev_ind; [done|].
  unfold scatter_flags in *. rewrite enumerate_snoc, foldl_snoc. run_M.
  rewrite IH.
  assert (match fl ++ [flag] with [] => inr vecs | _ :: _ => inl e end
          = (inl e : exn + list Q * list Q)) as -> by (by destruct fl).
  destruct fl; [|done]. destruct vecs. by rewrite Ht.
Qed.

Lemma noise_vectors_seed efac le flags seed w :
  noise_vectors efac le flags seed w
  = noise_vectors efac le flags None (maybe_seed seed w).2.
Proof. unfold noise_vectors. run_M. by destruct seed. Qed.

(** The validation of [add_measurement_noise], case by case. *)

Lemma noise_vectors_no_flags_scalar e le seed w q :
  equad_of le = Scalar q →
  noise_vectors (Scalar e) le None seed w
  = (inr (np_ones_times (length (toas (psr w))) e,
          np_ones_times (length (toas (psr w))) q), (maybe_seed seed w).2).
Proof.
  intros Hq. rewrite noise_vectors_seed. unfold noise_vectors. rewrite Hq.
  run_M. by rewrite maybe_seed_psr.
Qed.

Lemma noise_vectors_no_flags_array efac le seed w :
  isscalar efac = false ∨ isscalar (equad_of le) = false →
  noise_vectors efac le None seed w
  = (inl (ValueError msg_scalar), (maybe_seed seed w).2).
Proof.
  intros H. rewrite noise_vectors_seed. unfold noise_vectors. run_M.
  destruct efac, (equad_of le); simpl in *; try done; by destruct H.
Qed.

Lemma noise_vectors_flags_scalar e le fl seed w q :
  equad_of le = Scalar q →
  noise_vectors (Scalar e) le (Some fl) seed w
  = (inr (np_zeros (length (toas (psr w))), np_zeros (length (toas (psr w)))),
     (maybe_seed seed w).2).
Proof.
  intros Hq. rewrite noise_vectors_seed. unfold noise_vectors. rewrite Hq.
  run_M. by rewrite maybe_seed_psr.
Qed.

Lemma noise_vectors_efac_length xs le fl seed w :
  length xs ≠ length fl →
  noise_vectors (Array xs) le (Some fl) seed w
  = (inl (ValueError msg_length), (maybe_seed seed w).2).
Proof.
  intros Hlen. rewrite noise_vectors_seed. unfold noise_vectors. run_M.
  by rewrite bool_decide_eq_false_2.
Qed.

Lemma noise_vectors_equad_length xs le ys fl seed w :
  length xs = length fl → equad_of le = Array ys → length ys ≠ length fl →
  noise_vectors (Array xs) le (Some fl) seed w
  = (inl (ValueError msg_length), (maybe_seed seed w).2).
Proof.
  intros Hx Hq Hy. rewrite noise_vectors_seed. unfold noise_vectors.
  rewrite Hq. run_M.
  by rewrite bool_decide_eq_true_2, bool_decide_eq_false_2.
Qed.

Lemma noise_vectors_equad_scalar xs le q fl seed w :
  length xs = length fl → equad_of le = Scalar q →
  noise_vectors (Array xs) le (Some fl) seed w
  = (inl TypeError, (maybe_seed seed w).2).
Proof.
  intros Hx Hq. rewrite noise_vectors_seed. unfold noise_vectors.
  rewrite Hq. run_M. by rewrite bool_decide_eq_true_2.
Qed.

Lemma noise_vectors_efac_scalar e le ys fl seed w :
  equad_of le = Array ys →
  noise_vectors (Scalar e) le (Some fl) seed w
  = (inl TypeError, (maybe_seed seed w).2).
Proof.
  intros Hq. rewrite noise_vectors_seed. unfold noise_vectors.
  rewrite Hq. by run_M.
Qed.

Lemma noise_vectors_scatter xs le ys fl seed w :
  length xs = length fl → equad_of le = Array ys → length ys = length fl →
  noise_vectors (Array xs) le (Some fl) seed w
  = scatter_flags (psr w) fl (Array xs) (Array ys)
      (np_zeros (length (toas (psr w))), np_zeros (length (toas (psr w))))
      (maybe_seed seed w).2.
Proof.
  intros Hx Hq Hy. rewrite noise_vectors_seed. unfold noise_vectors.
  rewrite Hq. run_M. rewrite !bool_decide_eq_true_2 by done.
  by rewrite maybe_seed_psr.
Qed.

Lemma np_zeros_length n : length (np_zeros n) = n.
Proof. apply length_replicate. Qed.

Lemma np_ones_times_length n x : length (np_ones_times n x) = n.
Proof. unfold np_ones_times. by rewrite length_fmap, length_replicate. Qed.

(** Whatever the outcome, validation leaves the pulsar alone and draws
    nothing: the world after it is the world after the seeding. *)
Lemma noise_vectors_world efac le flags seed w r w' :
  noise_vectors efac le flags seed w = (r, w') → w' = (maybe_seed seed w).2.
Proof.
  destruct flags as [fl|], efac as [e|xs], (equad_of le) as [q|ys] eqn:Hq.
  - rewrite (noise_vectors_flags_scalar _ _ _ _ _ _ Hq). by intros [= _ <-].
  - rewrite (noise_vectors_efac_scalar _ _ _ _ _ _ Hq). by intros [= _ <-].
  - destruct (decide (length xs = length fl)) as [Hx|Hx].
    + rewrite (noise_vectors_equad_scalar _ _ _ _ _ _ Hx Hq). by intros [= _ <-].
    + rewrite (noise_vectors_efac_length _ _ _ _ _ Hx). by intros [= _ <-].
  - destruct (decide (length xs = length fl)) as [Hx|Hx].
    + destruct (decide (length ys = length fl)) as [Hy|Hy].
      * rewrite (noise_vectors_scatter _ _ _ _ _ _ Hx Hq Hy).
        apply scatter_flags_world.
      * rewrite (noise_vectors_equad_length _ _ _ _ _ _ Hx Hq Hy).
        by intros [= _ <-].
    + rewrite (noise_vectors_efac_length _ _ _ _ _ Hx). by intros [= _ <-].
  - rewrite (noise_vectors_no_flags_scalar _ _ _ _ _ Hq). by intros [= _ <-].
  - rewrite noise_vectors_no_flags_array by (right; by rewrite Hq).
    by intros [= _ <-].
  - rewrite noise_vectors_no_flags_array by by left. by intros [= _ <-].
  - rewrite noise_vectors_no_flags_array by by left. by intros [= _ <-].
Qed.

(** When validation succeeds both vectors have one entry per observation. *)
Lemma noise_vectors_length efac le flags seed w ev qv w' :
  noise_vectors efac le flags seed w = (inr (ev, qv), w') →
  length ev = length (toas (psr w)) ∧ length qv = length (toas (psr w)).
Proof.
  destruct flags as [fl|], efac as [e|xs], (equad_of le) as [q|ys] eqn:Hq.
  - rewrite (noise_vectors_flags_scalar _ _ _ _ _ _ Hq).
    intros [= <- <- _]. by rewrite np_zeros_length.
  - by rewrite (noise_vectors_efac_scalar _ _ _ _ _ _ Hq).
  - destruct (decide (length xs = length fl)) as [Hx|Hx].
    + by rewrite (noise_vectors_equad_scalar _ _ _ _ _ _ Hx Hq).
    + by rewrite (noise_vectors_efac_length _ _ _ _ _ Hx).
  - destruct (decide (length xs = length fl)) as [Hx|Hx].
    + destruct (decide (length ys = length fl)) as [Hy|Hy].
      * rewrite (noise_vectors_scatter _ _ _ _ _ _ Hx Hq Hy).
        destruct (table_flags (psr w)) as [e|fs] eqn:E.
        -- destruct fl as [|flag fl _] using rev_ind.
           ++ intros [= <- <- _]. by rewrite np_zeros_length.
           ++ unfold scatter_flags. rewrite enumerate_snoc, foldl_snoc. run_M.
              match goal with
              | |- context [foldl ?f ?a ?l ?w0] =>
                  destruct (foldl f a l w0) as [[e'|[ev' qv']] w1]
              end; [done|]. by rewrite E.
        -- rewrite (scatter_flags_ok _ _ _ _ _ _ _ E). simpl.
           intros [= <- <- _]. apply table_flags_length in E.
           rewrite !scatter_ecorr_length by (by rewrite np_zeros_length).
           by rewrite np_zeros_length.
      * by rewrite (noise_vectors_equad_length _ _ _ _ _ _ Hx Hq Hy).
    + by rewrite (noise_vectors_efac_length _ _ _ _ _ Hx).
  - rewrite (noise_vectors_no_flags_scalar _ _ _ _ _ Hq).
    intros [= <- <- _]. by rewrite !np_ones_times_length.
  - by rewrite noise_vectors_no_flags_array by (right; by rewrite Hq).
  - by rewrite noise_vectors_no_flags_array by by left.
  - by rewrite noise_vectors_no_flags_array by by left.
Qed.


(** ** Measurement noise *)

(** After a successful validation nothing can fail: two draws of [n]
    deviates and the arithmetic. *)
Lemma measurement_noise_dt_run efac le flags seed tn w :
  measurement_noise_dt efac le flags seed tn w
  = match noise_vectors efac le flags seed w with
    | (inl e, w1) => (inl e, w1)
    | (inr (ev, qv), w1) =>
        let n := length (toas (psr w1)) in
        let z1 := rng w1 <$> seq 0 n in
        let z2 := (fun k => rng w1 (n + k)) <$> seq 0 n in
        (inr (vadd (vmul (vmul ev (toa_error <$> toas (psr w1))) z1)
                   (if tn then vmul qv z2 else vmul (vmul ev qv) z2)),
         {| rng := fun k => rng w1 (n + (n + k)); psr := psr w1 |})
    end.
Proof.
  unfold measurement_noise_dt. run_M.
  destruct (noise_vectors efac le flags seed w) as [[e|[ev qv]] w1]; [done|].
  by destruct tn.
Qed.

Lemma vmul_lookup xs ys i x y :
  xs !! i = Some x → ys !! i = Some y → vmul xs ys !! i = Some (x * y)%Q.
Proof. intros Hx Hy. unfold vmul. by rewrite lookup_zip_with, Hx; simpl; rewrite Hy. Qed.

Lemma vadd_lookup xs ys i x y :
  xs !! i = Some x → ys !! i = Some y → vadd xs ys !! i = Some (x + y)%Q.
Proof. intros Hx Hy. unfold vadd. by rewrite lookup_zip_with, Hx; simpl; rewrite Hy. Qed.

Lemma draws_lookup (g : nat → Q) n i : i < n → (g <$> seq 0 n) !! i = Some (g i).
Proof. intros Hi. by rewrite list_lookup_fmap, lookup_seq_lt. Qed.

Lemma np_ones_times_lookup n x i :
  i < n → np_ones_times n x !! i = Some (1 * x)%Q.
Proof.
  intros Hi. unfold np_ones_times.
  by rewrite list_lookup_fmap, lookup_replicate_2.
Qed.

Lemma measurement_dt_lookup (ev qv : list Q) (g : nat → Q) (ts : list TOA)
    (tn : bool) i toa e q :
  ts !! i = Some toa → ev !! i = Some e → qv !! i = Some q →
  vadd (vmul (vmul ev (toa_error <$> ts)) (g <$> seq 0 (length ts)))
       (if tn then vmul qv ((fun k => g (length ts + k)) <$> seq 0 (length ts))
        else vmul (vmul ev qv)
               ((fun k => g (length ts + k)) <$> seq 0 (length ts))) !! i
  = Some (e * toa_error toa * g i +
          (if tn then q * g (length ts + i)%nat
           else e * q * g (length ts + i)%nat))%Q.
Proof.
  intros Hi He Hq. pose proof (lookup_lt_Some _ _ _ Hi) as Hlt.
  apply vadd_lookup.
  - apply vmul_lookup; [|by apply draws_lookup].
    apply vmul_lookup; [done|]. by rewrite list_lookup_fmap, Hi.
  - destruct tn.
    + apply vmul_lookup; [done|].
      by apply (draws_lookup (fun k => g (length ts + k))).
    + apply vmul_lookup; [by apply vmul_lookup|].
      by apply (draws_lookup (fun k => g (length ts + k))).
Qed.

(** From zeros, the loop over the supplied flags leaves at an entry whose
    own flag is [fb] the value selected by [fb]. *)
Lemma scatter_ecorr_selected flags f vals n b fb :
  f !! b = Some fb → b < n →
  ∃ v, scatter_ecorr flags f vals (np_zeros n) !! b = Some v ∧
       selected_by_flag flags vals fb v.
Proof.
  intros Hf Hb.
  assert (np_zeros n !! b = Some 0%Q) as Hz by (by apply lookup_replicate_2).
  destruct (scatter_ecorr_is_Some flags f vals _ b fb 0%Q Hf Hz) as [v Hv].
  destruct (scatter_ecorr_lookup flags f vals _ b fb 0%Q Hf Hz) as [H1 H2].
  exists v. split; [done|]. split.
  - intros Hn. specialize (H1 Hn). congruence.
  - intros ct Hct Hl. specialize (H2 ct Hct Hl). congruence.
Qed.

(** The coefficients that a passed validation leaves for an observation. *)
Lemma noise_vectors_coefficients efac le flags seed w ev qv w1 i toa :
  noise_vectors efac le flags seed w = (inr (ev, qv), w1) →
  toas (psr w) !! i = Some toa →
  ∃ e q, ev !! i = Some e ∧ qv !! i = Some q ∧
         noise_coefficients efac (equad_of le) flags toa e q.
Proof.
  intros Hv Hi. pose proof (lookup_lt_Some _ _ _ Hi) as Hlt.
  assert (np_zeros (length (toas (psr w))) !! i = Some 0%Q) as Hz
    by (by apply lookup_replicate_2).
  destruct flags as [fl|], efac as [e0|xs], (equad_of le) as [q0|ys] eqn:Hq.
  - rewrite (noise_vectors_flags_scalar _ _ _ _ _ _ Hq) in Hv.
    injection Hv as <- <- _. by exists 0%Q, 0%Q.
  - by rewrite (noise_vectors_efac_scalar _ _ _ _ _ _ Hq) in Hv.
  - destruct (decide (length xs = length fl)) as [Hx|Hx].
    + by rewrite (noise_vectors_equad_scalar _ _ _ _ _ _ Hx Hq) in Hv.
    + by rewrite (noise_vectors_efac_length _ _ _ _ _ Hx) in Hv.
  - destruct (decide (length xs = length fl)) as [Hx|Hx];
      [|by rewrite (noise_vectors_efac_length _ _ _ _ _ Hx) in Hv].
    destruct (decide (length ys = length fl)) as [Hy|Hy];
      [|by rewrite (noise_vectors_equad_length _ _ _ _ _ _ Hx Hq Hy) in Hv].
    rewrite (noise_vectors_scatter _ _ _ _ _ _ Hx Hq Hy) in Hv.
    destruct (table_flags (psr w)) as [e1|fs] eqn:Ht.
    + rewrite (scatter_flags_fail_gen _ _ _ _ _ _ _ Ht) in Hv.
      destruct fl as [|flag fl]; [|done]. injection Hv as <- <- _.
      exists 0%Q, 0%Q. split; [done|]. split; [done|]. simpl.
      destruct (toa_flags toa !! "f") as [fb|]; [|done].
      split; (split; [done|by intros ct Hct]).
    + rewrite (scatter_flags_ok _ _ _ _ _ _ _ Ht) in Hv.
      injection Hv as <- <- _. simpl.
      destruct (table_flags_lookup _ _ _ _ Ht Hi) as (fb & Hfb & Hfi).
      destruct (scatter_ecorr_selected fl fs (Array xs) _ i fb Hfi Hlt)
        as (e & He & Hse).
      destruct (scatter_ecorr_selected fl fs (Array ys) _ i fb Hfi Hlt)
        as (q & Hqi & Hsq).
      exists e, q. split; [done|]. split; [done|]. by rewrite Hfb.
  - rewrite (noise_vectors_no_flags_scalar _ _ _ _ _ Hq) in Hv.
    injection Hv as <- <- _.
    exists (1 * e0)%Q, (1 * q0)%Q.
    rewrite !np_ones_times_lookup by done. split; [done|]. split; [done|].
    exists e0, q0. repeat split; ring.
  - by rewrite noise_vectors_no_flags_array in Hv by (right; by rewrite Hq).
  - by rewrite noise_vectors_no_flags_array in Hv by by left.
  - by rewrite noise_vectors_no_flags_array in Hv by by left.
Qed.

End InjectorRun.

(** C4, the claim as stated, fails when flags are given with scalar
    parameters.  On the sample pulsar with [flags = ['A', 'B']], [efac = 2]
    and no [log10_equad], the first observation has uncertainty 1 and the
    first deviate is -2, so that the formula of the claim gives it the
    offset -4; the code gives every observation the offset 0, since
    [efacvec] and [equadvec] keep their zeros. *)
Lemma measurement_noise_scalar_formula_fails :
  ∃ dt w2 toa d,
    measurement_noise_dt (B := Sample.sample_backend) (Scalar 2%Q) None
      (Some ["A"; "B"]) None false Sample.sample_world = (inr dt, w2) ∧
    toas (psr Sample.sample_world) !! 0 = Some toa ∧
    dt !! 0 = Some d ∧
    (d == 0)%Q ∧
    ¬ (d == noise_formula false 2 0 (toa_error toa)
              (rng Sample.sample_world 0) (rng Sample.sample_world 3))%Q.
Proof.
  eexists _, _, _, _. split; [vm_compute; reflexivity|].
  split; [reflexivity|]. split; [reflexivity|].
  split; [reflexivity|]. by vm_compute.
Qed.

Section MeasurementNoise.
Context `{B : Backend}.

(** C4, amended.  Whenever the validation of [add_measurement_noise]
    passes, the offsets are computed, and the offset of observation [i] is
    [EFAC_i * sigma_i * Z1_i + EFAC_i * EQUAD_i * Z2_i] when [tnequad] is
    false and [EFAC_i * sigma_i * Z1_i + EQUAD_i * Z2_i] when it is true;
    [sigma_i] is the stated uncertainty, [Z1] the [n] deviates drawn first
    and [Z2] the [n] drawn next.  Without flags [EFAC_i] is [efac] and
    [EQUAD_i] is [10**log10_equad], 0 when that is [None].  With flags and
    per-flag arrays, [EFAC_i] and [EQUAD_i] are the entries of [efac] and of
    [10**log10_equad] at the last position of the observation's [f] flag in
    [flags], and 0 when that flag is not listed.  With flags and scalars both
    are 0. *)
Theorem measurement_noise_offsets efac log10_equad flags seed tnequad w ev qv w1 :
  noise_vectors efac log10_equad flags seed w = (inr (ev, qv), w1) →
  ∃ dt w2,
    measurement_noise_dt efac log10_equad flags seed tnequad w = (inr dt, w2) ∧
    measurement_offsets_spec efac log10_equad flags tnequad w
      (rng (maybe_seed seed w).2) ev qv dt ∧
    (log10_equad = None → equad_of log10_equad = Scalar 0%Q) ∧
    (∀ x, log10_equad = Some (Scalar x) →
          equad_of log10_equad = Scalar (pow10 x)) ∧
    (∀ ys, log10_equad = Some (Array ys) →
           equad_of log10_equad = Array (pow10 <$> ys)).
Proof.
  intros Hv. pose proof (noise_vectors_world _ _ _ _ _ _ _ Hv) as Hw.
  destruct (noise_vectors_length _ _ _ _ _ _ _ _ Hv) as [Hev Hqv].
  rewrite measurement_noise_dt_run, Hv. subst w1.
  rewrite maybe_seed_psr. set (g := rng (maybe_seed seed w).2).
  eexists _, _. split; [done|].
  split; [|split; [by intros ->|split; [by intros x ->|by intros ys ->]]].
  split.
  - unfold vadd, vmul. destruct tnequad;
      rewrite !length_zip_with, !length_fmap, !length_seq; lia.
  - intros i toa Hi.
    destruct (noise_vectors_coefficients _ _ _ _ _ _ _ _ _ _ Hv Hi)
      as (e & q & He & Hq & Hc).
    exists e, q. split; [done|]. split; [done|]. split; [done|].
    by apply measurement_dt_lookup.
Qed.

End MeasurementNoise.

Section InjectorFacts.
Context `{B : Backend}.


(** ** Running [add_measurement_noise] and [add_jitter] *)

Lemma add_measurement_noise_run efac le flags seed tn w :
  add_measurement_noise efac le flags seed tn w
  = match measurement_noise_dt efac le flags seed tn w with
    | (inl e, w1) => (inl e, w1)
    | (inr dt, w1) =>
        (inr tt, {| rng := rng w1;
                    psr := refresh_residuals (shift_toas (psr w1) (to_day dt)) |})
    end.
Proof.
  unfold add_measurement_noise, adjust_TOAs, update_residuals. run_M.
  by destruct (measurement_noise_dt efac le flags seed tn w) as [[e|dt] w1].
Qed.

Lemma jitter_vectors_run ecorr flags cg seed w :
  jitter_vectors ecorr flags cg seed w
  = match quantize_toas (psr w) flags cg with
    | inl e => (inl e, (maybe_seed seed w).2)
    | inr (t, f, U) =>
        match flags, ecorr with
        | None, Scalar e =>
            (inr (U, np_ones_times (length t) e), (maybe_seed seed w).2)
        | None, Array _ =>
            (inl (ValueError msg_jitter_scalar), (maybe_seed seed w).2)
        | Some _, Scalar _ =>
            (inr (U, np_zeros (length t)), (maybe_seed seed w).2)
        | Some fl, Array xs =>
            if bool_decide (length xs = length fl)
            then (inr (U, scatter_ecorr fl (default [] f) ecorr
                            (np_zeros (length t))), (maybe_seed seed w).2)
            else (inl (ValueError msg_jitter_length), (maybe_seed seed w).2)
        end
    end.
Proof.
  unfold jitter_vectors. run_M. rewrite (maybe_seed_ok seed w).
  rewrite maybe_seed_psr.
  destruct (quantize_toas (psr w) flags cg) as [e|[[t f] U]]; [done|].
  destruct flags as [fl|], ecorr as [e|xs]; simpl; try done.
  by case_bool_decide.
Qed.

Lemma jitter_dt_run ecorr flags cg seed w :
  jitter_dt ecorr flags cg seed w
  = match jitter_vectors ecorr flags cg seed w with
    | (inl e, w1) => (inl e, w1)
    | (inr (U, ev), w1) =>
        (inr (np_dot (scale_columns U ev) (rng w1 <$> seq 0 (shape1 U))),
         {| rng := fun k => rng w1 (shape1 U + k); psr := psr w1 |})
    end.
Proof.
  unfold jitter_dt. run_M.
  by destruct (jitter_vectors ecorr flags cg seed w) as [[e|[U ev]] w1].
Qed.

Lemma add_jitter_run ecorr flags cg seed w :
  add_jitter ecorr flags cg seed w
  = match jitter_dt ecorr flags cg seed w with
    | (inl e, w1) => (inl e, w1)
    | (inr dt, w1) =>
        (inr tt, {| rng := rng w1;
                    psr := refresh_residuals (shift_toas (psr w1) (to_day dt)) |})
    end.
Proof.
  unfold add_jitter, adjust_TOAs, update_residuals. run_M.
  by destruct (jitter_dt ecorr flags cg seed w) as [[e|dt] w1].
Qed.

Lemma jitter_vectors_world ecorr flags cg seed w r w' :
  jitter_vectors ecorr flags cg seed w = (r, w') → w' = (maybe_seed seed w).2.
Proof.
  rewrite jitter_vectors_run.
  destruct (quantize_toas (psr w) flags cg) as [e|[[t f] U]];
    [by intros [= _ <-]|].
  destruct flags as [fl|], ecorr as [e|xs]; try by intros [= _ <-].
  case_bool_decide; by intros [= _ <-].
Qed.

(** An error of either injector is an error of its validation phase, and
    the world it leaves is the world after the seeding. *)
Lemma add_measurement_noise_error efac le flags seed tn w e w' :
  add_measurement_noise efac le flags seed tn w = (inl e, w') →
  noise_vectors efac le flags seed w = (inl e, w') ∧ w' = (maybe_seed seed w).2.
Proof.
  rewrite add_measurement_noise_run, measurement_noise_dt_run.
  destruct (noise_vectors efac le flags seed w) as [[e'|[ev qv]] w1] eqn:E;
    [|done].
  intros [= <- <-]. split; [done|]. by eapply noise_vectors_world.
Qed.

Lemma add_jitter_error ecorr flags cg seed w e w' :
  add_jitter ecorr flags cg seed w = (inl e, w') →
  jitter_vectors ecorr flags cg seed w = (inl e, w') ∧ w' = (maybe_seed seed w).2.
Proof.
  rewrite add_jitter_run, jitter_dt_run.
  destruct (jitter_vectors ecorr flags cg seed w) as [[e'|[U ev]] w1] eqn:E;
    [|done].
  intros [= <- <-]. split; [done|]. by eapply jitter_vectors_world.
Qed.

(** ** Vectors of zeros *)

Lemma vmul_zero_l xs ys :
  Forall (fun x => (x == 0)%Q) xs → Forall (fun x => (x == 0)%Q) (vmul xs ys).
Proof.
  unfold vmul. intros H. revert ys.
  induction H as [|x xs Hx _ IH]; intros ys; [by constructor|].
  destruct ys as [|y ys]; [by constructor|].
  simpl. constructor; [|apply IH]. rewrite Hx. ring.
Qed.

Lemma vmul_zero_r xs ys :
  Forall (fun y => (y == 0)%Q) ys → Forall (fun x => (x == 0)%Q) (vmul xs ys).
Proof.
  unfold vmul. intros H. revert xs.
  induction H as [|y ys Hy _ IH]; intros xs; [by destruct xs; constructor|].
  destruct xs as [|x xs]; [by constructor|].
  simpl. constructor; [|apply IH]. rewrite Hy. ring.
Qed.

Lemma vadd_zero xs ys :
  Forall (fun x => (x == 0)%Q) xs → Forall (fun y => (y == 0)%Q) ys →
  Forall (fun x => (x == 0)%Q) (vadd xs ys).
Proof.
  unfold vadd. intros H. revert ys.
  induction H as [|x xs Hx _ IH]; intros ys Hys; [by constructor|].
  destruct Hys as [|y ys Hy Hys]; [by constructor|].
  simpl. constructor; [|by apply IH]. rewrite Hx, Hy. ring.
Qed.

Lemma np_zeros_zero n : Forall (fun x => (x == 0)%Q) (np_zeros n).
Proof. apply Forall_replicate. reflexivity. Qed.

Lemma np_sum_zero xs : Forall (fun x => (x == 0)%Q) xs → (np_sum xs == 0)%Q.
Proof.
  induction 1 as [|x xs Hx _ IH]; [done|].
  rewrite np_sum_cons, Hx, IH. ring.
Qed.

(** With flags and scalar [efac], [equad] the measurement offsets vanish. *)
Lemma measurement_noise_flags_scalar e le fl seed tn w :
  isscalar (equad_of le) = true →
  noise_vectors (Scalar e) le (Some fl) seed w
  = (inr (np_zeros (length (toas (psr w))), np_zeros (length (toas (psr w)))),
     (maybe_seed seed w).2) ∧
  ∃ dt w',
    measurement_noise_dt (Scalar e) le (Some fl) seed tn w = (inr dt, w') ∧
    length dt = length (toas (psr w)) ∧
    Forall (fun x => (x == 0)%Q) dt.
Proof.
  intros Hs. destruct (equad_of le) as [q|ys] eqn:Hq; [|done].
  pose proof (noise_vectors_flags_scalar e le fl seed w q Hq) as Hv.
  split; [done|].
  rewrite measurement_noise_dt_run, Hv. rewrite maybe_seed_psr.
  eexists _, _. split; [done|]. split.
  - unfold vadd, vmul, np_zeros. destruct tn;
      rewrite !length_zip_with, !length_fmap, !length_seq, !length_replicate;
      lia.
  - apply vadd_zero.
    + apply vmul_zero_l, vmul_zero_l, np_zeros_zero.
    + destruct tn; [apply vmul_zero_l|apply vmul_zero_l, vmul_zero_l];
        apply np_zeros_zero.
Qed.

(** With flags and a per-flag [efac] of the right length, a scalar [equad]
    makes [len(equad)] fail. *)
Lemma add_measurement_noise_mixed xs le fl seed tn w :
  length xs = length fl → isscalar (equad_of le) = true →
  add_measurement_noise (Array xs) le (Some fl) seed tn w
  = (inl TypeError, (maybe_seed seed w).2).
Proof.
  intros Hx Hs. destruct (equad_of le) as [q|ys] eqn:Hq; [|done].
  rewrite add_measurement_noise_run, measurement_noise_dt_run.
  by rewrite (noise_vectors_equad_scalar _ _ _ _ _ _ Hx Hq).
Qed.

(** With flags and a scalar [efac], an array [equad] makes [len(efac)]
    fail. *)
Lemma add_measurement_noise_mixed' e le fl seed tn w :
  isscalar (equad_of le) = false →
  add_measurement_noise (Scalar e) le (Some fl) seed tn w
  = (inl TypeError, (maybe_seed seed w).2).
Proof.
  intros Hs. destruct (equad_of le) as [q|ys] eqn:Hq; [done|].
  rewrite add_measurement_noise_run, measurement_noise_dt_run.
  by rewrite (noise_vectors_efac_scalar _ _ _ _ _ _ Hq).
Qed.

(** ** Jitter *)

Lemma quantize_fast_error times flags dt e :
  quantize_fast times flags dt = inl e → e = IndexError.
Proof.
  unfold quantize_fast.
  destruct (bucketize _ _ _) as [[refs inds]|]; [|by intros [= <-]].
  destruct flags as [fl|]; [|done].
  destruct (bucket_flags fl inds); [done|by intros [= <-]].
Qed.

Lemma bucketize_nonempty times dt refs inds :
  bucketize times dt (argsort times) = Some (refs, inds) → 0 < length times.
Proof.
  rewrite <- argsort_length. by destruct (argsort times); [|simpl; lia].
Qed.

Lemma shape1_incidence n m inds : 0 < n → shape1 (incidence n m inds) = m.
Proof.
  intros Hn. unfold shape1, incidence.
  destruct n as [|n]; [lia|]. simpl. by rewrite length_fmap, length_seq.
Qed.

Lemma bucket_flags_lookup fs inds aveflags c b h fb :
  bucket_flags fs inds = Some aveflags →
  inds !! c = Some b → head b = Some h → fs !! h = Some fb →
  aveflags !! c = Some fb.
Proof.
  intros Hbf Hc Hh Hfb. apply mapM_Some_1 in Hbf.
  destruct (Forall2_lookup_l _ _ _ _ _ Hbf Hc) as (y & Hy & Hyy).
  rewrite Hh in Hyy. simpl in Hyy. congruence.
Qed.

Lemma jitter_vectors_inr ecorr flags cg seed w U ev w1 :
  jitter_vectors ecorr flags cg seed w = (inr (U, ev), w1) →
  ∃ refs inds t f,
    quantize_toas (psr w) flags cg = inr (t, f, U) ∧
    bucketize (toas_times (psr w)) cg (argsort (toas_times (psr w)))
    = Some (refs, inds) ∧
    U = mapping_matrix (length (toas (psr w))) inds ∧
    f = (fl ← flags; bucket_flags (flagvals (psr w) fl) inds) ∧
    length ev = length inds ∧
    w1 = (maybe_seed seed w).2 ∧
    ev = match flags, ecorr with
         | None, Scalar e => np_ones_times (length inds) e
         | Some fl, Array _ =>
             scatter_ecorr fl (default [] f) ecorr (np_zeros (length inds))
         | _, _ => np_zeros (length inds)
         end.
Proof.
  intros Hv. pose proof (jitter_vectors_world _ _ _ _ _ _ _ Hv) as ->.
  rewrite jitter_vectors_run in Hv.
  destruct (quantize_toas (psr w) flags cg) as [e|[[t f] U']] eqn:Hq; [done|].
  assert (∃ fl', quantize_fast (toas_times (psr w)) fl' cg = inr (t, f, U') ∧
                 fl' = (fl ← flags; Some (flagvals (psr w) fl)))
    as (fl' & Hqf & Hfl').
  { unfold quantize_toas in Hq. destruct flags; eauto. }
  apply quantize_fast_inr in Hqf as (refs & inds & Hb & Ht & Hf & HU).
  assert (length t = length inds) as Hlen by (by rewrite Ht, length_fmap).
  assert (length (toas_times (psr w)) = length (toas (psr w))) as Hn
    by apply length_fmap.
  rewrite Hn in HU.
  assert (f = (fl ← flags; bucket_flags (flagvals (psr w) fl) inds)) as Hf'.
  { rewrite Hf, Hfl'. by destruct flags. }
  exists refs, inds, t, f.
  destruct flags as [fl|], ecorr as [e|xs]; simpl in *.
  - injection Hv as <- <-. rewrite Hlen, np_zeros_length. by repeat split.
  - case_bool_decide; [|done]. injection Hv as <- <-.
    rewrite Hlen. repeat split; try done.
    rewrite scatter_ecorr_length; rewrite np_zeros_length; [done|].
    rewrite Hf'. destruct (bucket_flags _ inds) as [fs|] eqn:Hbf; simpl.
    + apply mapM_Some_1, Forall2_length in Hbf. done.
    + exfalso. unfold quantize_toas, quantize_fast in Hq.
      rewrite Hb, Hbf in Hq. done.
  - injection Hv as <- <-. rewrite Hlen, np_ones_times_length. by repeat split.
  - done.
Qed.

Lemma np_dot_lookup (A : list (list Q)) z r row :
  A !! r = Some row → np_dot A z !! r = Some (np_sum (vmul row z)).
Proof. intros H. unfold np_dot. by rewrite list_lookup_fmap, H. Qed.

Lemma jitter_offsets_lemma ecorr flags cg seed w U ev w1 :
  jitter_vectors ecorr flags cg seed w = (inr (U, ev), w1) →
  ∃ refs inds t f dt w2,
    quantize_toas (psr w) flags cg = inr (t, f, U) ∧
    bucketize (toas_times (psr w)) cg (argsort (toas_times (psr w)))
    = Some (refs, inds) ∧
    partition_matrix (length (toas (psr w))) inds U ∧
    jitter_dt ecorr flags cg seed w = (inr dt, w2) ∧
    jitter_offsets_spec inds U (rng (maybe_seed seed w).2) ev dt ∧
    ecorr_selection ecorr flags (psr w) inds ev.
Proof.
  intros Hv.
  destruct (jitter_vectors_inr _ _ _ _ _ _ _ _ Hv)
    as (refs & inds & t & f & Hq & Hb & HU & Hf & Hlen & -> & Hev).
  pose proof (bucketize_nonempty _ _ _ _ Hb) as Hpos.
  destruct (bucketize_partition _ _ _ _ Hb) as (Hanch & Hperm & Hpart).
  assert (length (toas_times (psr w)) = length (toas (psr w))) as Hn
    by apply length_fmap.
  rewrite Hn in Hpos, Hperm, Hpart. rewrite <- HU in Hpart.
  set (g := rng (maybe_seed seed w).2).
  assert (shape1 U = length inds) as Hshape.
  { rewrite HU, mapping_matrix_incidence. by apply shape1_incidence. }
  rewrite jitter_dt_run, Hv, Hshape. fold g.
  eexists refs, inds, t, f, _, _.
  split; [done|]. split; [done|]. split; [done|]. split; [done|].
  assert (NoDup (concat inds)) as Hnd by (rewrite Hperm; apply NoDup_seq).
  split; [split; [done|split; [|split]]|].
  - unfold np_dot, scale_columns. by rewrite !length_fmap.
  - unfold np_dot, scale_columns. rewrite <- list_fmap_compose.
    apply Forall2_fmap, Forall_Forall2_diag, Forall_forall. intros row _.
    simpl. apply np_sum_Qeq, vmul_assoc_Qeq.
  - intros r c b Hc Hr.
    assert (r < length (toas (psr w))) as Hrn.
    { assert (r ∈ concat inds) as Hin by (apply elem_of_concat; eauto).
      rewrite Hperm in Hin. apply elem_of_seq in Hin. lia. }
    assert (U !! r = Some (unit_vec (length inds) c)) as Hrow.
    { rewrite HU, mapping_matrix_incidence, incidence_lookup by done.
      f_equal. by eapply incidence_row_unit. }
    pose proof (lookup_lt_Some _ _ _ Hc) as Hclt.
    destruct (lookup_lt_is_Some_2 ev c) as [e He]; [lia|].
    eexists _, e. split; [|split; [done|]].
    + apply np_dot_lookup. unfold scale_columns.
      by rewrite list_lookup_fmap, Hrow.
    + rewrite (np_sum_Qeq _ _ (vmul_assoc_Qeq _ _ _)).
      apply np_sum_unit_vec.
      * unfold vmul. rewrite length_zip_with, length_fmap, length_seq. lia.
      * apply vmul_lookup; [done|]. by apply draws_lookup.
  - unfold ecorr_selection. destruct flags as [fl|].
    + intros Hs c b h fb Hc Hh Hfb.
      destruct ecorr as [e|xs]; [done|]. simpl in Hf.
      destruct (bucket_flags (flagvals (psr w) fl) inds) as [fs|] eqn:Hbf.
      2:{ exfalso. unfold quantize_toas, quantize_fast in Hq.
          rewrite Hb, Hbf in Hq. done. }
      subst f. simpl in Hev.
      pose proof (bucket_flags_lookup _ _ _ _ _ _ _ Hbf Hc Hh Hfb) as Hfc.
      pose proof (lookup_lt_Some _ _ _ Hc) as Hclt.
      assert (np_zeros (length inds) !! c = Some 0%Q) as Hz
        by (by apply lookup_replicate_2).
      destruct (scatter_ecorr_lookup fl fs (Array xs) _ c fb 0%Q Hfc Hz)
        as [H1 H2].
      destruct (scatter_ecorr_is_Some fl fs (Array xs) _ c fb 0%Q Hfc Hz)
        as [e He].
      exists e. rewrite Hev. split; [done|]. split.
      * intros Hnot. specialize (H1 Hnot). congruence.
      * intros ct Hct Hlast. specialize (H2 ct Hct Hlast). congruence.
    + intros c Hc. destruct ecorr as [e|xs].
      * subst ev. exists (1 * e)%Q. split; [by apply np_ones_times_lookup|].
        simpl. ring.
      * exfalso. rewrite jitter_vectors_run, Hq in Hv. done.
Qed.

End InjectorFacts.

Section InjectorClaims.
Context `{B : Backend}.

(** ** The claims about the noise injector *)


(** C5 fails on the code: with flags and a per-flag [efac] of the right
    length, the default [log10_equad=None] makes [equad] the scalar 0.0 and
    [len(equad)] at line 90 raises [TypeError]; the configuration is
    rejected although neither length differs from [len(flags)]. *)
Theorem per_flag_efac_with_default_equad_raises w :
  add_measurement_noise (Array [1; 11 # 10]%Q) None (Some ["A"; "B"]) None false w
  = (inl TypeError, w).
Proof. by rewrite add_measurement_noise_mixed. Qed.

(** C6.  With a list of flags and scalar [efac] and [equad],
    [add_measurement_noise] raises nothing, leaves [efacvec] and [equadvec]
    all zeros, and its offsets are all zero.  With a list of flags and a
    scalar [ecorr], [add_jitter] raises no validation error either: unless
    the quantizer itself fails with [IndexError], [ecorrvec] is all zeros and
    the offsets are all zero; and the quantizer does not fail on a pulsar
    with at least one observation and a flag value for each. *)
Theorem flags_with_scalars_inject_nothing e log10_equad x fl coarsegrain seed tnequad w :
  isscalar (equad_of log10_equad) = true →
  (noise_vectors (Scalar e) log10_equad (Some fl) seed w
   = (inr (np_zeros (length (toas (psr w))), np_zeros (length (toas (psr w)))),
      (maybe_seed seed w).2) ∧
   ∃ dt w',
     measurement_noise_dt (Scalar e) log10_equad (Some fl) seed tnequad w
     = (inr dt, w') ∧
     add_measurement_noise (Scalar e) log10_equad (Some fl) seed tnequad w
     = (inr tt, {| rng := rng w';
                   psr := refresh_residuals (shift_toas (psr w) (to_day dt)) |}) ∧
     length dt = length (toas (psr w)) ∧
     Forall (fun y => (y == 0)%Q) dt) ∧
  ((quantize_toas (psr w) (Some fl) coarsegrain = inl IndexError ∧
    jitter_dt (Scalar x) (Some fl) coarsegrain seed w
    = (inl IndexError, (maybe_seed seed w).2)) ∨
   (∃ U dt w',
      jitter_vectors (Scalar x) (Some fl) coarsegrain seed w
      = (inr (U, np_zeros (shape1 U)), (maybe_seed seed w).2) ∧
      jitter_dt (Scalar x) (Some fl) coarsegrain seed w = (inr dt, w') ∧
      length dt = length (toas (psr w)) ∧
      Forall (fun y => (y == 0)%Q) dt)) ∧
  (toas (psr w) ≠ [] → length (toas (psr w)) ≤ length (flagvals (psr w) fl) →
   ∃ dt w', jitter_dt (Scalar x) (Some fl) coarsegrain seed w = (inr dt, w')).
Proof.
  intros Hs. split.
  { destruct (measurement_noise_flags_scalar e log10_equad fl seed tnequad w Hs)
      as (Hv & dt & w' & Hdt & Hlen & Hz).
    split; [done|]. exists dt, w'. split; [done|]. split; [|done].
    rewrite add_measurement_noise_run, Hdt. do 3 f_equal.
    rewrite measurement_noise_dt_run, Hv in Hdt. injection Hdt as _ <-.
    simpl. by rewrite maybe_seed_psr. }
  assert (Hcases :
    (quantize_toas (psr w) (Some fl) coarsegrain = inl IndexError ∧
     jitter_dt (Scalar x) (Some fl) coarsegrain seed w
     = (inl IndexError, (maybe_seed seed w).2)) ∨
    (∃ U dt w',
       jitter_vectors (Scalar x) (Some fl) coarsegrain seed w
       = (inr (U, np_zeros (shape1 U)), (maybe_seed seed w).2) ∧
       jitter_dt (Scalar x) (Some fl) coarsegrain seed w = (inr dt, w') ∧
       length dt = length (toas (psr w)) ∧
       Forall (fun y => (y == 0)%Q) dt)).
  { destruct (jitter_vectors (Scalar x) (Some fl) coarsegrain seed w)
      as [[err|[U ev]] w1] eqn:Hv.
    - left. rewrite jitter_dt_run, Hv. rewrite jitter_vectors_run in Hv.
      destruct (quantize_toas _ _ _) as [err'|[[t f] U]] eqn:Hq; [|done].
      injection Hv as <- <-.
      unfold quantize_toas in Hq. apply quantize_fast_error in Hq as ->.
      done.
    - right.
      destruct (jitter_offsets_lemma _ _ _ _ _ _ _ _ Hv)
        as (refs & inds & t & f & dt & w2 & Hq & Hb & Hpart & Hdt & Hspec & _).
      destruct (jitter_vectors_inr _ _ _ _ _ _ _ _ Hv)
        as (refs' & inds' & _ & _ & _ & Hb' & HU & _ & _ & -> & Hev).
      rewrite Hb in Hb'. injection Hb' as <- <-. simpl in Hev.
      pose proof (bucketize_nonempty _ _ _ _ Hb) as Hpos.
      unfold toas_times in Hpos. rewrite length_fmap in Hpos.
      assert (shape1 U = length inds) as Hshape.
      { rewrite HU, mapping_matrix_incidence. by apply shape1_incidence. }
      exists U, dt, w2. rewrite Hshape, <- Hev.
      split; [done|]. split; [done|].
      destruct Hspec as (_ & Hlen & _ & Hmem).
      destruct Hpart as (HlenU & _ & _ & Hperm).
      split; [congruence|].
      apply Forall_lookup. intros r y Hy.
      pose proof (lookup_lt_Some _ _ _ Hy) as Hr.
      assert (r ∈ concat inds) as (c & b & Hc & Hrb)%elem_of_concat.
      { rewrite Hperm. apply elem_of_seq. lia. }
      destruct (Hmem r c b Hc Hrb) as (y' & e0 & Hy' & He0 & Heq).
      rewrite Hy in Hy'. injection Hy' as <-.
      rewrite Hev in He0. apply lookup_replicate in He0 as [-> _].
      rewrite Heq. ring. }
  split; [exact Hcases|].
  intros Hne Hfl. destruct Hcases as [[Hq _]|(U & dt & w' & _ & Hdt & _)];
    [|by eauto].
  exfalso. unfold quantize_toas, quantize_fast in Hq.
  assert (toas_times (psr w) ≠ []) as Hne'.
  { unfold toas_times. by destruct (toas (psr w)). }
  destruct (bucketize_some (toas_times (psr w)) coarsegrain Hne')
    as (refs & inds & Hb).
  rewrite Hb in Hq.
  destruct (bucket_flags (flagvals (psr w) fl) inds) eqn:Hbf; [done|].
  assert (is_Some (bucket_flags (flagvals (psr w) fl) inds)) as [? ?];
    [|congruence].
  apply mapM_is_Some, Forall_forall. intros b Hbin.
  destruct (bucketize_partition _ _ _ _ Hb) as (Hanch & Hperm & _).
  pose proof (anchored_nonempty _ _ _ _ Hanch) as Hnonempty.
  eapply Forall_forall in Hnonempty; [|done].
  destruct b as [|h b]; [done|]. simpl.
  apply lookup_lt_is_Some_2.
  assert (h ∈ concat inds) as Hin.
  { apply list_elem_of_lookup in Hbin as [c Hc].
    apply elem_of_concat. exists c, (h :: b). split; [done|left]. }
  rewrite Hperm in Hin. apply elem_of_seq in Hin.
  unfold toas_times in Hin. rewrite length_fmap in Hin. lia.
Qed.

(** C7.  Whenever [add_measurement_noise] or [add_jitter] raises, the world
    it leaves is the world right after the seeding: the pulsar (TOAs and
    residuals) is the one before the call, and the generator is the freshly
    seeded one, or the one before the call when no seed is given, so that
    no deviate has been drawn. *)
Theorem validation_fail_fast efac log10_equad ecorr flags coarsegrain seed tnequad w e w' :
  add_measurement_noise efac log10_equad flags seed tnequad w = (inl e, w') ∨
  add_jitter ecorr flags coarsegrain seed w = (inl e, w') →
  psr w' = psr w ∧
  toas (psr w') = toas (psr w) ∧
  residuals (psr w') = residuals (psr w) ∧
  rng w' = match seed with Some s => seeded s | None => rng w end.
Proof.
  intros [H|H].
  - apply add_measurement_noise_error in H as [_ ->].
    rewrite maybe_seed_psr. by destruct seed.
  - apply add_jitter_error in H as [_ ->].
    rewrite maybe_seed_psr. by destruct seed.
Qed.

(** C8.  With a seed, [add_measurement_noise] does not depend on the state
    the global generator was in: two runs on the same pulsar with the same
    arguments give the same offsets, and leave the same world behind. *)
Theorem measurement_noise_seed_deterministic efac log10_equad flags s tnequad p g1 g2 :
  measurement_noise_dt efac log10_equad flags (Some s) tnequad {| rng := g1; psr := p |}
  = measurement_noise_dt efac log10_equad flags (Some s) tnequad {| rng := g2; psr := p |} ∧
  add_measurement_noise efac log10_equad flags (Some s) tnequad {| rng := g1; psr := p |}
  = add_measurement_noise efac log10_equad flags (Some s) tnequad {| rng := g2; psr := p |}.
Proof.
  assert (measurement_noise_dt efac log10_equad flags (Some s) tnequad
            {| rng := g1; psr := p |}
          = measurement_noise_dt efac log10_equad flags (Some s) tnequad
              {| rng := g2; psr := p |}) as H.
  { rewrite !measurement_noise_dt_run.
    by rewrite (noise_vectors_seed _ _ _ _ {| rng := g1; psr := p |}),
      (noise_vectors_seed _ _ _ _ {| rng := g2; psr := p |}). }
  split; [done|]. by rewrite !add_measurement_noise_run, H.
Qed.

(** C10.  When the timing model of the par file defines RAJ and DECJ,
    [load_pulsar] returns no pulsar: the [try] body succeeds, so the [else]
    clause runs and raises [AttributeError] (once both files are found).
    A pulsar is returned only for a model that lacks RAJ or DECJ and
    provides ELONG and ELAT. *)
Theorem load_pulsar_equatorial_raises parfile timfile ephem0 :
  (is_Some (RAJ (get_model parfile)) → is_Some (DECJ (get_model parfile)) →
   ∃ e, load_pulsar parfile timfile ephem0 = inl e ∧
        (isfile parfile = true → isfile timfile = true →
         e = AttributeError
               "No pulsar location information (RAJ/DECJ or ELONG/ELAT) in parfile.")) ∧
  (∀ p, load_pulsar parfile timfile ephem0 = inr p →
        (RAJ (get_model parfile) = None ∨ DECJ (get_model parfile) = None) ∧
        is_Some (ELONG (get_model parfile)) ∧
        is_Some (ELAT (get_model parfile))).
Proof.
  unfold load_pulsar. split.
  - intros [ra Hra] [dec Hdec]. rewrite Hra, Hdec. simpl.
    destruct (isfile parfile); simpl; [|by eexists].
    destruct (isfile timfile); simpl; by eexists.
  - intros p.
    destruct (isfile parfile); simpl; [|done].
    destruct (isfile timfile); simpl; [|done].
    destruct (RAJ (get_model parfile)) as [ra|],
             (DECJ (get_model parfile)) as [dec|]; simpl; try done;
      destruct (ELONG (get_model parfile)) as [elong|],
               (ELAT (get_model parfile)) as [elat|]; simpl; try done;
      intros _; eauto.
Qed.

End InjectorClaims.

(** ** The theorems at concrete inputs *)

Section Witnesses.
Import Sample.

(** Three observations at days 0, 0.9 and 1 with flags A, B, B and a
    coarse-graining time of one day: the first two share a bucket, whose
    flag is A, and get the same offset. *)
Example jitter_sample :
  ∃ dt,
    (jitter_dt (Array [1 # 2; 1 # 3]%Q) (Some ["A"; "B"]) 1%Q (Some 1%Z)
       sample_world).1 = inr dt ∧
    Forall2 Qeq dt [- (1 # 2); - (1 # 2); 1 # 3]%Q.
Proof.
  eexists. split; [vm_compute; reflexivity|].
  repeat constructor; vm_compute; reflexivity.
Qed.

(** Without a seed the offsets follow the state of the generator. *)
Example unseeded_follows_generator :
  (measurement_noise_dt (Scalar 2%Q) None None None false
     {| rng := sample_seeded 0; psr := sample_psr |}).1
  ≠ (measurement_noise_dt (Scalar 2%Q) None None None false
       {| rng := sample_seeded 1; psr := sample_psr |}).1.
Proof. vm_compute. discriminate. Qed.


Lemma measurement_noise_offsets_witness :
  ∃ dt w2,
    measurement_noise_dt (Array [1; 2]%Q) (Some (Array [-(7); -(8)]%Q))
      (Some ["A"; "B"]) (Some 1%Z) false sample_world = (inr dt, w2) ∧
    measurement_offsets_spec (Array [1; 2]%Q) (Some (Array [-(7); -(8)]%Q))
      (Some ["A"; "B"]) false sample_world (sample_seeded 1)
      [1; 2; 2]%Q
      [sample_pow10 (-(7)); sample_pow10 (-(8)); sample_pow10 (-(8))]%Q dt ∧
    (Some (Array [-(7); -(8)]%Q) = None →
     equad_of (Some (Array [-(7); -(8)]%Q)) = Scalar 0%Q) ∧
    (∀ x, Some (Array [-(7); -(8)]%Q) = Some (Scalar x) →
          equad_of (Some (Array [-(7); -(8)]%Q)) = Scalar (pow10 x)) ∧
    (∀ ys, Some (Array [-(7); -(8)]%Q) = Some (Array ys) →
           equad_of (Some (Array [-(7); -(8)]%Q)) = Array (pow10 <$> ys)).
Proof.
  refine (measurement_noise_offsets (Array [1; 2]%Q)
           (Some (Array [-(7); -(8)]%Q)) (Some ["A"; "B"])
           (Some 1%Z) false sample_world
           [1; 2; 2]%Q
           [sample_pow10 (-(7)); sample_pow10 (-(8)); sample_pow10 (-(8))]%Q
           {| rng := sample_seeded 1; psr := sample_psr |} _).
  reflexivity.
Defined.

Lemma flags_with_scalars_inject_nothing_witness :
  (noise_vectors (Scalar 2%Q) None (Some ["A"; "B"]) (Some 1%Z) sample_world
   = (inr (np_zeros 3, np_zeros 3), {| rng := sample_seeded 1; psr := sample_psr |}) ∧
   ∃ dt w',
     measurement_noise_dt (Scalar 2%Q) None (Some ["A"; "B"]) (Some 1%Z) true
       sample_world = (inr dt, w') ∧
     add_measurement_noise (Scalar 2%Q) None (Some ["A"; "B"]) (Some 1%Z) true
       sample_world
     = (inr tt, {| rng := rng w';
                   psr := refresh_residuals (shift_toas sample_psr (to_day dt)) |}) ∧
     length dt = 3 ∧
     Forall (fun y => (y == 0)%Q) dt) ∧
  ((quantize_toas sample_psr (Some ["A"; "B"]) 1%Q = inl IndexError ∧
    jitter_dt (Scalar (1 # 2)%Q) (Some ["A"; "B"]) 1%Q (Some 1%Z) sample_world
    = (inl IndexError, {| rng := sample_seeded 1; psr := sample_psr |})) ∨
   (∃ U dt w',
      jitter_vectors (Scalar (1 # 2)%Q) (Some ["A"; "B"]) 1%Q (Some 1%Z) sample_world
      = (inr (U, np_zeros (shape1 U)), {| rng := sample_seeded 1; psr := sample_psr |}) ∧
      jitter_dt (Scalar (1 # 2)%Q) (Some ["A"; "B"]) 1%Q (Some 1%Z) sample_world
      = (inr dt, w') ∧
      length dt = 3 ∧
      Forall (fun y => (y == 0)%Q) dt)) ∧
  (toas sample_psr ≠ [] → 3 ≤ length (flagvals sample_psr ["A"; "B"]) →
   ∃ dt w',
     jitter_dt (Scalar (1 # 2)%Q) (Some ["A"; "B"]) 1%Q (Some 1%Z) sample_world
     = (inr dt, w')).
Proof.
  refine (flags_with_scalars_inject_nothing 2%Q None (1 # 2)%Q ["A"; "B"] 1%Q
           (Some 1%Z) true sample_world _).
  reflexivity.
Defined.

Lemma validation_fail_fast_witness :
  psr {| rng := sample_seeded 3; psr := sample_psr |} = psr sample_world ∧
  toas (psr {| rng := sample_seeded 3; psr := sample_psr |}) = toas (psr sample_world) ∧
  residuals (psr {| rng := sample_seeded 3; psr := sample_psr |})
  = residuals (psr sample_world) ∧
  rng {| rng := sample_seeded 3; psr := sample_psr |} = sample_seeded 3.
Proof.
  refine (validation_fail_fast (Array [1; 11 # 10]%Q) None (Scalar 1%Q) None 1%Q
           (Some 3%Z) false sample_world (ValueError msg_scalar)
           {| rng := sample_seeded 3; psr := sample_psr |} _).
  left. reflexivity.
Defined.

Lemma load_pulsar_equatorial_raises_witness :
  ∃ e, load_pulsar "J.par" "J.tim" "DE440" = inl e ∧
       (isfile "J.par" = true → isfile "J.tim" = true →
        e = AttributeError
              "No pulsar location information (RAJ/DECJ or ELONG/ELAT) in parfile.").
Proof.
  apply (proj1 (load_pulsar_equatorial_raises "J.par" "J.tim" "DE440"));
    by eexists.
Defined.

End Witnesses.

(** * Further properties of the code *)

(** ** The quantizer: the buckets in time order *)

Lemma time_le_trans times : Transitive (time_le times).
Proof. intros i j k. unfold time_le. apply Qle_trans. Qed.

Lemma argsort_strongly_sorted times :
  StronglySorted (time_le times) (argsort times).
Proof.
  apply (@Sorted_StronglySorted _ _ (time_le_trans times)), argsort_sorted.
Qed.

(** The member lists of the buckets, laid end to end, are the indices in
    time order: buckets are runs of the time-sorted observations, every
    member of a bucket is no earlier than the members before it and no later
    than the members of the buckets after it. *)
Theorem quantize_buckets_in_time_order (times : list Q) (dt : Q) refs inds :
  bucketize times dt (argsort times) = Some (refs, inds) →
  concat inds = argsort times ∧
  StronglySorted (time_le times) (concat inds) ∧
  (∀ k k' b b' i j, inds !! k = Some b → inds !! k' = Some b' → k < k' →
                    i ∈ b → j ∈ b' → (time_at times i <= time_at times j)%Q).
Proof.
  intros Hb. pose proof (inv_concat (bucketize_inv _ _ _ _ Hb)) as Hc.
  simpl in Hc.
  assert (StronglySorted (time_le times) (concat inds)) as Hss.
  { rewrite Hc. apply argsort_strongly_sorted. }
  split; [done|]. split; [done|].
  clear Hb Hc. induction inds as [|l inds IH]; intros k k' b b' i j Hk Hk' Hlt Hi Hj.
  - done.
  - simpl in Hss. apply StronglySorted_app in Hss as (Hcross & _ & Hss').
    destruct k' as [|k']; [lia|]. simpl in Hk'.
    destruct k as [|k]; simpl in Hk.
    + injection Hk as ->. apply (Hcross i j Hi).
      apply elem_of_concat. eauto.
    + apply (IH Hss' k k' b b' i j); (done || lia).
Qed.

Lemma quantize_buckets_in_time_order_witness :
  concat [[0; 1]; [2]] = argsort [0; 9 # 10; 1]%Q ∧
  StronglySorted (time_le [0; 9 # 10; 1]%Q) (concat [[0; 1]; [2]]) ∧
  (∀ k k' b b' i j,
     [[0; 1]; [2]] !! k = Some b → [[0; 1]; [2]] !! k' = Some b' → k < k' →
     i ∈ b → j ∈ b' →
     (time_at [0; 9 # 10; 1]%Q i <= time_at [0; 9 # 10; 1]%Q j)%Q).
Proof.
  apply (quantize_buckets_in_time_order [0; 9 # 10; 1]%Q 1 [0; 1]%Q [[0; 1]; [2]]).
  reflexivity.
Defined.

(** ** The quantizer: one bucket, and flags *)

Lemma bucket_loop_all_join times dt rest a b refs inds :
  Forall (fun i => (time_at times i - a < dt)%Q) rest →
  foldl (bucket_step times dt) (refs ++ [a], inds ++ [b]) rest
  = (refs ++ [a], inds ++ [b ++ rest]).
Proof.
  intros H. revert b. induction H as [|i rest Hi _ IH]; intros b; simpl.
  - by rewrite app_nil_r.
  - rewrite last_ref_snoc. apply Qltb_lt in Hi. rewrite Hi.
    rewrite append_to_last_snoc, IH. by rewrite <- app_assoc.
Qed.

(** When all the times lie within less than [dt] of each other there is one
    bucket that holds every observation, in time order; [U] is a single
    column of ones and the one representative time is the mean of all the
    times taken in that order. *)
Theorem quantize_single_bucket (times : list Q) (dt : Q) :
  times ≠ [] →
  (∀ i j, i < length times → j < length times →
          (time_at times i - time_at times j < dt)%Q) →
  ∃ i0,
    head (argsort times) = Some i0 ∧
    bucketize times dt (argsort times)
    = Some ([time_at times i0], [argsort times]) ∧
    quantize_fast times None dt
    = inr ([np_mean (time_at times <$> argsort times)], None,
           replicate (length times) [1%Q]).
Proof.
  intros Hne Hspan.
  destruct (argsort times) as [|i0 rest] eqn:E.
  { pose proof (argsort_length times) as Hl. rewrite E in Hl.
    destruct times; [done|simpl in Hl; lia]. }
  exists i0. split; [done|].
  assert (bucketize times dt (i0 :: rest)
          = Some ([time_at times i0], [i0 :: rest])) as Hb.
  { simpl. f_equal.
    apply (bucket_loop_all_join times dt rest (time_at times i0) [i0] [] []).
    apply Forall_forall. intros i Hi.
    apply Hspan; apply argsort_lt; rewrite E; [by right|by left]. }
  split; [done|].
  unfold quantize_fast. rewrite E, Hb. simpl. do 2 f_equal.
  rewrite mapping_matrix_incidence. simpl.
  apply list_eq. intros r. destruct (decide (r < length times)) as [Hr|Hr].
  - rewrite incidence_lookup, lookup_replicate_2 by done. simpl.
    unfold cell. simpl. rewrite bool_decide_eq_true_2; [done|].
    rewrite <- E. by apply argsort_lt.
  - rewrite incidence_lookup_ge by lia. symmetry.
    apply lookup_replicate_None. lia.
Qed.

Lemma quantize_single_bucket_witness :
  ∃ i0,
    head (argsort [3; 1; 2]%Q) = Some i0 ∧
    bucketize [3; 1; 2]%Q 5 (argsort [3; 1; 2]%Q)
    = Some ([time_at [3; 1; 2]%Q i0], [argsort [3; 1; 2]%Q]) ∧
    quantize_fast [3; 1; 2]%Q None 5
    = inr ([np_mean (time_at [3; 1; 2]%Q <$> argsort [3; 1; 2]%Q)], None,
           replicate 3 [1%Q]).
Proof.
  apply (quantize_single_bucket [3; 1; 2]%Q 5); [discriminate|].
  intros i j Hi Hj.
  destruct i as [|[|[|i]]]; [| | |simpl in Hi; lia];
    destruct j as [|[|[|j]]]; try (simpl in Hj; lia); reflexivity.
Defined.

(** With flags, [quantize_fast] fails exactly when there is no observation
    or the first member of some bucket has no entry in [flags]; when it
    returns, the flag of each bucket is the flag of its first member, one
    flag per bucket; a flag for every observation is enough for it to
    return on a non-empty input. *)
Theorem quantize_fast_flags (times : list Q) (fl : list string) (dt : Q) :
  (quantize_fast times (Some fl) dt = inl IndexError ↔
   times = [] ∨
   ∃ refs inds c b h,
     bucketize times dt (argsort times) = Some (refs, inds) ∧
     inds !! c = Some b ∧ head b = Some h ∧ length fl ≤ h) ∧
  (∀ t f U, quantize_fast times (Some fl) dt = inr (t, f, U) →
     ∃ refs inds aveflags,
       bucketize times dt (argsort times) = Some (refs, inds) ∧
       f = Some aveflags ∧ length aveflags = length inds ∧
       ∀ c b h, inds !! c = Some b → head b = Some h →
                aveflags !! c = fl !! h) ∧
  (times ≠ [] → length times ≤ length fl →
   ∃ t aveflags U, quantize_fast times (Some fl) dt = inr (t, Some aveflags, U)).
Proof.
  assert (Hfail : quantize_fast times (Some fl) dt = inl IndexError ↔
   times = [] ∨
   ∃ refs inds c b h,
     bucketize times dt (argsort times) = Some (refs, inds) ∧
     inds !! c = Some b ∧ head b = Some h ∧ length fl ≤ h).
  { unfold quantize_fast. split.
    - destruct (bucketize times dt (argsort times)) as [[refs inds]|] eqn:Hb.
      + destruct (bucket_flags fl inds) as [fs|] eqn:Hbf; [done|]. intros _.
        right.
        assert (¬ Forall (is_Some ∘ (fun ind => i ← head ind; fl !! i)) inds)
          as Hnot.
        { intros HF. apply mapM_is_Some in HF as [? HF].
          unfold bucket_flags in Hbf. congruence. }
        apply not_Forall_Exists in Hnot; [|solve_decision].
        apply Exists_exists in Hnot as (b & Hbin & Hbad).
        apply list_elem_of_lookup in Hbin as [c Hc].
        pose proof (anchored_nonempty _ _ _ _
                      (inv_anchored (bucketize_inv _ _ _ _ Hb))) as Hnon.
        simpl in Hnon. eapply Forall_lookup_1 in Hnon; [|done].
        destruct b as [|h b]; [done|].
        exists refs, inds, c, (h :: b), h. repeat split; [done..|].
        simpl in Hbad. apply lookup_ge_None.
        destruct (fl !! h) eqn:E; [|done]. exfalso. apply Hbad. by eexists.
      + intros _. left. destruct times as [|x times]; [done|]. exfalso.
        destruct (bucketize_some (x :: times) dt) as (? & ? & ?); [done|].
        congruence.
    - intros [->|(refs & inds & c & b & h & Hb & Hc & Hh & Hlen)]; [done|].
      rewrite Hb. destruct (bucket_flags fl inds) as [fs|] eqn:Hbf; [|done].
      exfalso. apply mapM_Some_1 in Hbf.
      destruct (Forall2_lookup_l _ _ _ _ _ Hbf Hc) as (y & _ & Hy).
      rewrite Hh in Hy. simpl in Hy.
      apply lookup_ge_None_2 in Hlen. congruence. }
  split; [exact Hfail|]. split.
  - intros t f U Hq.
    destruct (quantize_fast_inr _ _ _ _ _ _ Hq)
      as (refs & inds & Hb & _ & Hf & _).
    simpl in Hf. destruct (bucket_flags fl inds) as [fs|] eqn:Hbf.
    2:{ exfalso. unfold quantize_fast in Hq. rewrite Hb, Hbf in Hq. done. }
    exists refs, inds, fs. split; [done|]. split; [done|].
    pose proof (mapM_Some_1 _ _ _ Hbf) as HF. split.
    + symmetry. by eapply Forall2_length.
    + intros c b h Hc Hh.
      destruct (Forall2_lookup_l _ _ _ _ _ HF Hc) as (y & Hy & Hyy).
      rewrite Hh in Hyy. simpl in Hyy. congruence.
  - intros Hne Hlen.
    destruct (quantize_fast times (Some fl) dt) as [e|[[t f] U]] eqn:Hq.
    + exfalso. pose proof (quantize_fast_error _ _ _ _ Hq) as ->.
      destruct (proj1 Hfail eq_refl)
        as [->|(refs & inds & c & b & h & Hb & Hc & Hh & Hge)]; [done|].
      destruct (bucketize_partition _ _ _ _ Hb) as (_ & Hperm & _).
      assert (h ∈ concat inds) as Hin.
      { apply elem_of_concat. exists c, b. split; [done|].
        destruct b; simpl in Hh; [done|]. injection Hh as ->. left. }
      rewrite Hperm in Hin. apply elem_of_seq in Hin. lia.
    + apply quantize_fast_inr in Hq as Hq'.
      destruct Hq' as (refs & inds & Hb & _ & Hf & _). simpl in Hf.
      destruct (bucket_flags fl inds) as [fs|] eqn:Hbf.
      * subst f. by exists t, fs, U.
      * exfalso. unfold quantize_fast in Hq. rewrite Hb, Hbf in Hq. done.
Qed.

Lemma quantize_fast_flags_witness :
  ∃ t aveflags U,
    quantize_fast [0; 9 # 10; 1]%Q (Some ["A"; "B"; "B"]) 1
    = inr (t, Some aveflags, U).
Proof.
  apply (proj2 (proj2 (quantize_fast_flags [0; 9 # 10; 1]%Q ["A"; "B"; "B"] 1)));
    [discriminate|simpl; lia].
Defined.

(** ** The effect of the injectors on the pulsar and on the generator *)

Section InjectorEffects.
Context `{B : Backend}.

Lemma shift_toas_lookup p delta i toa d :
  toas p !! i = Some toa → delta !! i = Some d →
  toas (shift_toas p delta) !! i
  = Some {| toa_mjd := (toa_mjd toa + d)%Q; toa_error := toa_error toa;
            toa_flags := toa_flags toa |}.
Proof.
  intros Ht Hd. unfold shift_toas. simpl.
  by rewrite lookup_zip_with, Ht; simpl; rewrite Hd.
Qed.

Lemma shift_toas_length p delta :
  length delta = length (toas p) →
  length (toas (shift_toas p delta)) = length (toas p).
Proof. intros H. unfold shift_toas. simpl. rewrite length_zip_with. lia. Qed.

Lemma to_day_lookup dt i d :
  dt !! i = Some d → to_day dt !! i = Some (d / 86400)%Q.
Proof. intros H. unfold to_day. by rewrite list_lookup_fmap, H. Qed.

Lemma to_day_length dt : length (to_day dt) = length dt.
Proof. apply length_fmap. Qed.

Lemma measurement_noise_dt_inr efac le flags seed tn w dt w1 :
  measurement_noise_dt efac le flags seed tn w = (inr dt, w1) →
  length dt = length (toas (psr w)) ∧
  psr w1 = psr w ∧
  ∀ k, rng w1 k
       = rng (maybe_seed seed w).2
           (length (toas (psr w)) + (length (toas (psr w)) + k)).
Proof.
  rewrite measurement_noise_dt_run.
  destruct (noise_vectors efac le flags seed w) as [[e|[ev qv]] w0] eqn:Hv;
    [done|].
  pose proof (noise_vectors_world _ _ _ _ _ _ _ Hv) as ->.
  destruct (noise_vectors_length _ _ _ _ _ _ _ _ Hv) as [Hev Hqv].
  rewrite maybe_seed_psr. intros [= <- <-]. simpl.
  split; [|done].
  unfold vadd, vmul. destruct tn;
    rewrite !length_zip_with, !length_fmap, !length_seq; lia.
Qed.

(** When [add_measurement_noise] returns, every arrival time has moved by
    its offset converted from seconds to days, while uncertainties, flags,
    the number of observations and the timing model are as before; the
    stored residuals are those of the new arrival times; and the generator
    has delivered exactly [2 n] deviates. *)
Theorem add_measurement_noise_effect efac log10_equad flags seed tnequad w w' :
  add_measurement_noise efac log10_equad flags seed tnequad w = (inr tt, w') →
  ∃ dt w1,
    measurement_noise_dt efac log10_equad flags seed tnequad w = (inr dt, w1) ∧
    length dt = length (toas (psr w)) ∧
    length (toas (psr w')) = length (toas (psr w)) ∧
    (∀ i toa, toas (psr w) !! i = Some toa →
       ∃ d, dt !! i = Some d ∧
            toas (psr w') !! i
            = Some {| toa_mjd := (toa_mjd toa + d / 86400)%Q;
                      toa_error := toa_error toa;
                      toa_flags := toa_flags toa |}) ∧
    model (psr w') = model (psr w) ∧
    residuals (psr w') = Residuals (toas (psr w')) (model (psr w')) ∧
    (∀ k, rng w' k
          = rng (maybe_seed seed w).2
              (length (toas (psr w)) + (length (toas (psr w)) + k))).
Proof.
  rewrite add_measurement_noise_run.
  destruct (measurement_noise_dt efac log10_equad flags seed tnequad w)
    as [[e|dt] w1] eqn:Hdt; [done|].
  destruct (measurement_noise_dt_inr _ _ _ _ _ _ _ _ Hdt) as (Hlen & Hp & Hr).
  intros [= <-]. exists dt, w1. simpl. rewrite Hp.
  split; [done|]. split; [done|]. split; [|split; [|done]].
  - apply shift_toas_length. by rewrite to_day_length.
  - intros i toa Hi.
    destruct (lookup_lt_is_Some_2 dt i) as [d Hd].
    { rewrite Hlen. by eapply lookup_lt_Some. }
    exists d. split; [done|].
    apply shift_toas_lookup; [done|by apply to_day_lookup].
Qed.

Lemma jitter_dt_inr ecorr flags cg seed w dt w1 :
  jitter_dt ecorr flags cg seed w = (inr dt, w1) →
  ∃ refs inds,
    bucketize (toas_times (psr w)) cg (argsort (toas_times (psr w)))
    = Some (refs, inds) ∧
    length dt = length (toas (psr w)) ∧
    psr w1 = psr w ∧
    ∀ k, rng w1 k = rng (maybe_seed seed w).2 (length inds + k).
Proof.
  rewrite jitter_dt_run.
  destruct (jitter_vectors ecorr flags cg seed w) as [[e|[U ev]] w0] eqn:Hv;
    [done|].
  destruct (jitter_vectors_inr _ _ _ _ _ _ _ _ Hv)
    as (refs & inds & t & f & _ & Hb & HU & _ & _ & -> & _).
  pose proof (bucketize_nonempty _ _ _ _ Hb) as Hpos.
  unfold toas_times in Hpos. rewrite length_fmap in Hpos.
  assert (shape1 U = length inds) as Hshape.
  { rewrite HU, mapping_matrix_incidence. by apply shape1_incidence. }
  intros [= <- <-]. exists refs, inds. simpl. rewrite Hshape.
  split; [done|]. split; [|by rewrite maybe_seed_psr].
  unfold np_dot, scale_columns. rewrite !length_fmap.
  rewrite HU, mapping_matrix_incidence. unfold incidence.
  by rewrite length_fmap, length_seq.
Qed.

(** When [add_jitter] returns, every arrival time has moved by its offset
    converted from seconds to days, uncertainties, flags, the number of
    observations and the model are as before, the stored residuals are those
    of the new arrival times, and the generator has delivered exactly one
    deviate per bucket. *)
Theorem add_jitter_effect ecorr flags coarsegrain seed w w' :
  add_jitter ecorr flags coarsegrain seed w = (inr tt, w') →
  ∃ refs inds dt w1,
    bucketize (toas_times (psr w)) coarsegrain (argsort (toas_times (psr w)))
    = Some (refs, inds) ∧
    jitter_dt ecorr flags coarsegrain seed w = (inr dt, w1) ∧
    length (toas (psr w')) = length (toas (psr w)) ∧
    (∀ i toa, toas (psr w) !! i = Some toa →
       ∃ d, dt !! i = Some d ∧
            toas (psr w') !! i
            = Some {| toa_mjd := (toa_mjd toa + d / 86400)%Q;
                      toa_error := toa_error toa;
                      toa_flags := toa_flags toa |}) ∧
    model (psr w') = model (psr w) ∧
    residuals (psr w') = Residuals (toas (psr w')) (model (psr w')) ∧
    (∀ k, rng w' k = rng (maybe_seed seed w).2 (length inds + k)).
Proof.
  rewrite add_jitter_run.
  destruct (jitter_dt ecorr flags coarsegrain seed w) as [[e|dt] w1] eqn:Hdt;
    [done|].
  destruct (jitter_dt_inr _ _ _ _ _ _ _ Hdt) as (refs & inds & Hb & Hlen & Hp & Hr).
  intros [= <-]. exists refs, inds, dt, w1. simpl. rewrite Hp.
  split; [done|]. split; [done|]. split; [|split; [|done]].
  - apply shift_toas_length. by rewrite to_day_length.
  - intros i toa Hi.
    destruct (lookup_lt_is_Some_2 dt i) as [d Hd].
    { rewrite Hlen. by eapply lookup_lt_Some. }
    exists d. split; [done|].
    apply shift_toas_lookup; [done|by apply to_day_lookup].
Qed.

End InjectorEffects.

(** ** Per-flag measurement noise and the outcomes of the validation *)

Section InjectorErrors.
Context `{B : Backend}.

Lemma table_flags_inl p e :
  table_flags p = inl e ↔
  e = KeyError "f" ∧ ∃ toa, toa ∈ toas p ∧ toa_flags toa !! "f" = None.
Proof.
  unfold table_flags. split.
  - destruct (mapM _ _) as [fs'|] eqn:E; [done|]. intros [= <-].
    split; [done|].
    assert (¬ Forall (is_Some ∘ (fun t => toa_flags t !! "f")) (toas p)) as Hn.
    { intros HF. apply mapM_is_Some in HF as [? HF]. congruence. }
    apply not_Forall_Exists in Hn; [|solve_decision].
    apply Exists_exists in Hn as (toa & Hin & Hbad). exists toa. split; [done|].
    simpl in Hbad. destruct (toa_flags toa !! "f") eqn:F; [|done].
    exfalso. apply Hbad. by eexists.
  - intros [-> (toa & Hin & Hnone)].
    destruct (mapM _ _) as [fs'|] eqn:E; [|done]. exfalso.
    apply mapM_Some_1 in E. apply list_elem_of_lookup in Hin as [i Hi].
    destruct (Forall2_lookup_l _ _ _ _ _ E Hi) as (fb & _ & Hy). congruence.
Qed.

(** With flags and per-flag arrays [efac], [equad] of the right length, an
    observation takes the [efac] and [equad] of the last entry of [flags]
    that equals its own [f] flag, and its offset follows the noise formula
    with them; an observation whose flag is not in [flags] gets no noise. *)
Theorem per_flag_measurement_noise xs log10_equad ys fl seed tnequad w fs :
  length xs = length fl →
  equad_of log10_equad = Array ys → length ys = length fl →
  table_flags (psr w) = inr fs →
  ∃ dt w1,
    measurement_noise_dt (Array xs) log10_equad (Some fl) seed tnequad w
    = (inr dt, w1) ∧
    ∀ i toa fb,
      toas (psr w) !! i = Some toa → toa_flags toa !! "f" = Some fb →
      ∃ e q d,
        selected_by_flag fl (Array xs) fb e ∧
        selected_by_flag fl (Array ys) fb q ∧
        dt !! i = Some d ∧
        d = (e * toa_error toa * rng (maybe_seed seed w).2 i +
             (if tnequad
              then q * rng (maybe_seed seed w).2 (length (toas (psr w)) + i)%nat
              else e * q * rng (maybe_seed seed w).2
                             (length (toas (psr w)) + i)%nat))%Q ∧
        (fb ∉ fl → (d == 0)%Q).
Proof.
  intros Hx Hq Hy Hfs.
  rewrite measurement_noise_dt_run,
    (noise_vectors_scatter _ _ _ _ _ _ Hx Hq Hy),
    (scatter_flags_ok _ _ _ _ _ _ _ Hfs). simpl.
  rewrite maybe_seed_psr. eexists _, _. split; [done|].
  intros i toa fb Hi Hfb.
  destruct (table_flags_lookup _ _ _ _ Hfs Hi) as (fb' & Hfb' & Hfi).
  rewrite Hfb in Hfb'. injection Hfb' as <-.
  pose proof (lookup_lt_Some _ _ _ Hi) as Hlt.
  assert (np_zeros (length (toas (psr w))) !! i = Some 0%Q) as Hz
    by (by apply lookup_replicate_2).
  destruct (scatter_ecorr_is_Some fl fs (Array xs) _ i fb 0%Q Hfi Hz) as [e He].
  destruct (scatter_ecorr_is_Some fl fs (Array ys) _ i fb 0%Q Hfi Hz) as [q Hqi].
  destruct (scatter_ecorr_lookup fl fs (Array xs) _ i fb 0%Q Hfi Hz) as [E1 E2].
  destruct (scatter_ecorr_lookup fl fs (Array ys) _ i fb 0%Q Hfi Hz) as [Q1 Q2].
  exists e, q. eexists. split; [|split; [|split; [|split; [reflexivity|]]]].
  - split; [intros Hn; specialize (E1 Hn); congruence|].
    intros ct Hct Hl. specialize (E2 ct Hct Hl). congruence.
  - split; [intros Hn; specialize (Q1 Hn); congruence|].
    intros ct Hct Hl. specialize (Q2 ct Hct Hl). congruence.
  - by apply measurement_dt_lookup.
  - intros Hn. specialize (E1 Hn). specialize (Q1 Hn).
    assert (e = 0%Q) as -> by congruence. assert (q = 0%Q) as -> by congruence.
    destruct tnequad; ring.
Qed.

(** Whenever [add_measurement_noise] returns, its arguments had one of the
    three shapes that pass the validation: no flags and two scalars; flags
    and two scalars; flags with arrays [efac] and [equad] of the length of
    [flags], every observation carrying an [f] flag unless [flags] is empty.
    And each error of the validation names its cause: the [ValueError] of
    line 84 comes only without flags and with an array among [efac] and
    [equad]; the [ValueError] of line 97 only with flags and an array [efac]
    of another length, or a fitting [efac] and an array [equad] of another
    length; [KeyError] for [f] only with two fitting arrays, at least one
    flag, and an observation that has no [f] flag. *)
Theorem add_measurement_noise_causes efac log10_equad flags seed tnequad w r w' :
  add_measurement_noise efac log10_equad flags seed tnequad w = (r, w') →
  (r = inr tt →
   (flags = None ∧
    isscalar efac = true ∧ isscalar (equad_of log10_equad) = true) ∨
   (∃ fl, flags = Some fl ∧
      isscalar efac = true ∧ isscalar (equad_of log10_equad) = true) ∨
   (∃ fl xs ys, flags = Some fl ∧ efac = Array xs ∧
      equad_of log10_equad = Array ys ∧
      length xs = length fl ∧ length ys = length fl ∧
      (fl = [] ∨
       ∀ toa, toa ∈ toas (psr w) → is_Some (toa_flags toa !! "f")))) ∧
  (r = inl (ValueError msg_scalar) →
   flags = None ∧
   (isscalar efac = false ∨ isscalar (equad_of log10_equad) = false)) ∧
  (r = inl (ValueError msg_length) →
   ∃ fl xs, flags = Some fl ∧ efac = Array xs ∧
     (length xs ≠ length fl ∨
      ∃ ys, equad_of log10_equad = Array ys ∧ length ys ≠ length fl)) ∧
  (r = inl (KeyError "f") →
   ∃ fl xs ys, flags = Some fl ∧ efac = Array xs ∧
     equad_of log10_equad = Array ys ∧
     length xs = length fl ∧ length ys = length fl ∧ fl ≠ [] ∧
     ∃ toa, toa ∈ toas (psr w) ∧ toa_flags toa !! "f" = None).
Proof.
  rewrite add_measurement_noise_run, measurement_noise_dt_run.
  destruct (noise_vectors efac log10_equad flags seed w) as [rv w1] eqn:Hv.
  destruct flags as [fl|], efac as [e0|xs],
    (equad_of log10_equad) as [q|ys] eqn:Hq.
  - rewrite (noise_vectors_flags_scalar _ _ _ _ _ _ Hq) in Hv.
    injection Hv as <- <-. intros [= <- <-].
    split; [|done]. intros _. right; left. by exists fl.
  - rewrite (noise_vectors_efac_scalar _ _ _ _ _ _ Hq) in Hv.
    injection Hv as <- <-. by intros [= <- <-].
  - destruct (decide (length xs = length fl)) as [Hx|Hx].
    + rewrite (noise_vectors_equad_scalar _ _ _ _ _ _ Hx Hq) in Hv.
      injection Hv as <- <-. by intros [= <- <-].
    + rewrite (noise_vectors_efac_length _ _ _ _ _ Hx) in Hv.
      injection Hv as <- <-. intros [= <- <-].
      split; [done|]. split; [done|]. split; [|done].
      intros _. exists fl, xs. by eauto.
  - destruct (decide (length xs = length fl)) as [Hx|Hx].
    + destruct (decide (length ys = length fl)) as [Hy|Hy].
      * rewrite (noise_vectors_scatter _ _ _ _ _ _ Hx Hq Hy) in Hv.
        destruct (table_flags (psr w)) as [e1|fs] eqn:Ht.
        -- rewrite (scatter_flags_fail_gen _ _ _ _ _ _ _ Ht) in Hv.
           apply table_flags_inl in Ht as [-> Htoa].
           destruct fl as [|flag fl]; injection Hv as <- <-; intros [= <- <-].
           ++ split; [|done]. intros _. right; right.
              exists [], xs, ys. repeat split; try done. by left.
           ++ split; [done|]. split; [done|]. split; [done|].
              intros _. exists (flag :: fl), xs, ys. by repeat split.
        -- rewrite (scatter_flags_ok _ _ _ _ _ _ _ Ht) in Hv.
           injection Hv as <- <-. intros [= <- <-].
           split; [|done]. intros _. right; right.
           exists fl, xs, ys. repeat split; try done. right.
           intros toa Hin. destruct (toa_flags toa !! "f") eqn:F; [done|].
           assert (table_flags (psr w) = inl (KeyError "f")) as Hbad
             by (apply table_flags_inl; eauto).
           congruence.
      * rewrite (noise_vectors_equad_length _ _ _ _ _ _ Hx Hq Hy) in Hv.
        injection Hv as <- <-. intros [= <- <-].
        split; [done|]. split; [done|]. split; [|done].
        intros _. exists fl, xs. split; [done|]. split; [done|].
        right. by exists ys.
    + rewrite (noise_vectors_efac_length _ _ _ _ _ Hx) in Hv.
      injection Hv as <- <-. intros [= <- <-].
      split; [done|]. split; [done|]. split; [|done].
      intros _. exists fl, xs. by eauto.
  - rewrite (noise_vectors_no_flags_scalar _ _ _ _ _ Hq) in Hv.
    injection Hv as <- <-. intros [= <- <-].
    split; [|done]. intros _. by left.
  - rewrite noise_vectors_no_flags_array in Hv by (right; by rewrite Hq).
    injection Hv as <- <-. intros [= <- <-].
    split; [done|]. split; [|done]. intros _. split; [done|by right].
  - rewrite noise_vectors_no_flags_array in Hv by by left.
    injection Hv as <- <-. intros [= <- <-].
    split; [done|]. split; [|done]. intros _. split; [done|by left].
  - rewrite noise_vectors_no_flags_array in Hv by by left.
    injection Hv as <- <-. intros [= <- <-].
    split; [done|]. split; [|done]. intros _. split; [done|by left].
Qed.

End InjectorErrors.

(** ** Loading pulsars *)

Lemma ascii_compare_trans_le (a b c : Ascii.ascii) :
  Ascii.compare a b ≠ Gt → Ascii.compare b c ≠ Gt → Ascii.compare a c ≠ Gt.
Proof.
  unfold Ascii.compare. rewrite !N.compare_le_iff. intros. etrans; eauto.
Qed.

Lemma string_compare_trans_le (s1 s2 s3 : string) :
  String.compare s1 s2 ≠ Gt → String.compare s2 s3 ≠ Gt →
  String.compare s1 s3 ≠ Gt.
Proof.
  revert s2 s3. induction s1 as [|a s1 IH]; intros [|b s2] [|c s3]; simpl;
    try done.
  intros H1 H2.
  destruct (Ascii.compare a b) eqn:Eab; [| |done];
    (destruct (Ascii.compare b c) eqn:Ebc; [| |done]).
  - apply Ascii.compare_eq_iff in Eab as ->.
    apply Ascii.compare_eq_iff in Ebc as ->.
    assert (Ascii.compare c c = Eq) as ->.
    { unfold Ascii.compare. apply N.compare_refl. }
    by eapply IH.
  - apply Ascii.compare_eq_iff in Eab as ->. by rewrite Ebc.
  - apply Ascii.compare_eq_iff in Ebc as <-. by rewrite Eab.
  - assert (Ascii.compare a c = Lt) as ->; [|done].
    unfold Ascii.compare in *. rewrite N.compare_lt_iff in *. by etrans.
Qed.

Lemma path_le_trans : Transitive path_le.
Proof.
  intros p q r. unfold path_le, String.leb. intros H1 H2.
  pose proof (string_compare_trans_le p q r) as H.
  destruct (String.compare p q), (String.compare q r),
    (String.compare p r); try done; exfalso; by apply H.
Qed.

Lemma insert_path_perm p l : insert_path p l ≡ₚ p :: l.
Proof.
  induction l as [|q l IH]; simpl; [done|].
  destruct (String.leb p q); [done|]. rewrite IH. apply Permutation_swap.
Qed.

Lemma sorted_perm l : sorted l ≡ₚ l.
Proof.
  unfold sorted. induction l as [|p l IH]; simpl; [done|].
  by rewrite insert_path_perm, IH.
Qed.

Lemma insert_path_sorted p l :
  Sorted path_le l → Sorted path_le (insert_path p l).
Proof.
  induction l as [|q l IH]; simpl; intros Hs.
  - repeat constructor.
  - destruct (String.leb p q) eqn:E.
    + constructor; [done|]. by constructor.
    + inversion Hs as [|? ? Hs' Hhd]; subst.
      assert (path_le q p) as Hqp.
      { destruct (String.leb_total p q) as [H|H]; [congruence|done]. }
      constructor; [by apply IH|].
      destruct l as [|r l]; simpl.
      * by constructor.
      * destruct (String.leb p r); constructor.
        -- exact Hqp.
        -- by inversion Hhd.
Qed.

Lemma sorted_strongly_sorted l : StronglySorted path_le (sorted l).
Proof.
  apply (@Sorted_StronglySorted _ _ path_le_trans).
  unfold sorted. induction l as [|p l IH]; simpl; [constructor|].
  by apply insert_path_sorted.
Qed.

Lemma StronglySorted_filter {A} (R : relation A) (P : A → Prop)
    `{∀ x, Decision (P x)} (l : list A) :
  StronglySorted R l → StronglySorted R (filter P l).
Proof.
  induction 1 as [|x l Hl IH Hx]; [constructor|].
  rewrite filter_cons. case_decide; [|done].
  constructor; [done|]. apply Forall_forall. intros y Hy.
  apply list_elem_of_filter in Hy as [_ Hy].
  by eapply Forall_forall in Hx.
Qed.

Lemma StronglySorted_take {A} (R : relation A) (n : nat) (l : list A) :
  StronglySorted R l → StronglySorted R (take n l).
Proof.
  intros H. rewrite <- (take_drop n l) in H.
  by apply StronglySorted_app_1_l in H.
Qed.

Section LoaderFacts.
Context `{B : Backend} `{D : Directories}.

(** [load_pulsar] returns a pulsar exactly when both files exist, the model
    lacks RAJ or DECJ and has ELONG and ELAT; the pulsar then carries the
    ecliptic coordinates.  The message about missing location information
    is raised exactly when both files exist and the model has RAJ and DECJ.
    A missing file is reported for the par file first. *)
Theorem load_pulsar_outcomes parfile timfile ephem0 :
  (∀ p, load_pulsar parfile timfile ephem0 = inr p ↔
        isfile parfile = true ∧ isfile timfile = true ∧
        (RAJ (get_model parfile) = None ∨ DECJ (get_model parfile) = None) ∧
        ∃ elong elat,
          ELONG (get_model parfile) = Some elong ∧
          ELAT (get_model parfile) = Some elat ∧
          p = ecliptic_pulsar parfile timfile ephem0 elong elat) ∧
  (load_pulsar parfile timfile ephem0 = inl (AttributeError msg_no_location) ↔
   isfile parfile = true ∧ isfile timfile = true ∧
   is_Some (RAJ (get_model parfile)) ∧ is_Some (DECJ (get_model parfile))) ∧
  (∀ msg, load_pulsar parfile timfile ephem0 = inl (FileNotFoundError msg) ↔
          (isfile parfile = false ∧ msg = "par file does not exist.") ∨
          (isfile parfile = true ∧ isfile timfile = false ∧
           msg = "tim file does not exist.")).
Proof.
  unfold load_pulsar, ecliptic_pulsar, msg_no_location.
  destruct (isfile parfile), (isfile timfile); simpl;
    destruct (RAJ (get_model parfile)) as [ra|],
             (DECJ (get_model parfile)) as [dec|],
             (ELONG (get_model parfile)) as [elong|],
             (ELAT (get_model parfile)) as [elat|]; simpl;
    (split; [|split]);
    try (intros ?); split; try done.
  all: try (intros [= <-]; repeat split; eauto; fail).
  all: try (intros (_ & _ & [?|?] & _); done).
  all: try (intros (_ & _ & _ & ? & ? & [= <-] & [= <-] & ->); done).
  all: try (intros (_ & _ & [? ?] & [? ?]); done).
  all: try (intros (? & ? & _); done).
  all: try (intros [(? & ->)|(? & ? & ->)]; done).
Qed.

(** The loop without a limit loads every pair in order and stops at the
    first one that fails. *)
Lemma load_all_inr ephem0 combo psrs out :
  load_loop ephem0 None combo psrs = inr out ↔
  ∃ loaded, out = psrs ++ loaded ∧ Forall2 (loads ephem0) combo loaded.
Proof.
  revert psrs. induction combo as [|[par tim] combo IH]; intros psrs; simpl.
  - split.
    + intros [= <-]. exists []. by rewrite app_nil_r.
    + intros (loaded & -> & ->%Forall2_nil_inv_l). by rewrite app_nil_r.
  - destruct (load_pulsar par tim ephem0) as [e|p] eqn:E.
    + split; [done|]. intros (loaded & _ & HF).
      apply Forall2_cons_inv_l in HF as (p & ? & Hp & _ & _).
      unfold loads in Hp. simpl in Hp. congruence.
    + rewrite IH. split.
      * intros (loaded & -> & HF). exists (p :: loaded).
        split; [by rewrite <- app_assoc|]. by constructor.
      * intros (loaded & -> & HF).
        apply Forall2_cons_inv_l in HF as (p' & loaded' & Hp & HF & ->).
        unfold loads in Hp. simpl in Hp. rewrite E in Hp. injection Hp as <-.
        exists loaded'. split; [by rewrite <- app_assoc|done].
Qed.

Lemma load_all_inl ephem0 combo psrs e :
  load_loop ephem0 None combo psrs = inl e ↔
  ∃ j pt loaded,
    combo !! j = Some pt ∧ Forall2 (loads ephem0) (take j combo) loaded ∧
    load_pulsar pt.1 pt.2 ephem0 = inl e.
Proof.
  revert psrs. induction combo as [|[par tim] combo IH]; intros psrs; simpl.
  - split; [done|]. by intros (j & pt & loaded & ? & _).
  - destruct (load_pulsar par tim ephem0) as [e'|p] eqn:E.
    + split.
      * intros [= <-]. exists 0, (par, tim), []. by repeat split.
      * intros ([|j] & pt & loaded & Hj & HF & He); simpl in *.
        -- injection Hj as <-. simpl in He. congruence.
        -- apply Forall2_cons_inv_l in HF as (p & ? & Hp & _ & _).
           unfold loads in Hp. simpl in Hp. congruence.
    + rewrite IH. split.
      * intros (j & pt & loaded & Hj & HF & He).
        exists (S j), pt, (p :: loaded). repeat split; [done| |done].
        simpl. by constructor.
      * intros ([|j] & pt & loaded & Hj & HF & He); simpl in *.
        -- injection Hj as <-. simpl in He. congruence.
        -- apply Forall2_cons_inv_l in HF as (p' & loaded' & _ & HF & ->).
           by exists j, pt, loaded'.
Qed.

(** The limit only shortens the list of pairs the loop goes through. *)
Lemma load_loop_limit ephem0 num_psrs combo psrs :
  load_loop ephem0 num_psrs combo psrs
  = load_loop ephem0 None
      (take (load_count num_psrs (length psrs) (length combo)) combo) psrs.
Proof.
  revert psrs. induction combo as [|[par tim] combo IH]; intros psrs.
  - by rewrite take_nil.
  - cbn [load_loop]. unfold limit_reached, load_count.
    destruct num_psrs as [z|]; simpl length.
    + destruct (z =? 0)%Z eqn:Ez; simpl negb; cbn [andb].
      * rewrite take_ge by (simpl; lia). cbn [load_loop].
        destruct (load_pulsar par tim ephem0) as [e|p]; [done|].
        rewrite IH. unfold load_count. by rewrite Ez, take_ge by lia.
      * destruct (z <=? Z.of_nat (length psrs))%Z eqn:Ele.
        -- apply Z.leb_le in Ele.
           replace (Z.to_nat z - length psrs) with 0 by lia. done.
        -- apply Z.leb_gt in Ele.
           replace (Nat.min (Z.to_nat z - length psrs) (S (length combo)))
             with (S (Nat.min (Z.to_nat z - S (length psrs)) (length combo)))
             by lia.
           cbn [take load_loop limit_reached].
           destruct (load_pulsar par tim ephem0) as [e|p]; [done|].
           rewrite IH. unfold load_count. rewrite Ez, length_app. simpl.
           by replace (length psrs + 1) with (S (length psrs)) by lia.
    + rewrite take_ge by (simpl; lia). cbn [load_loop limit_reached].
      destruct (load_pulsar par tim ephem0) as [e|p]; [done|].
      rewrite IH. unfold load_count. by rewrite take_ge by lia.
Qed.

Lemma load_from_directories_inr pardir timdir ephem0 num_psrs psrs :
  load_from_directories pardir timdir ephem0 num_psrs = inr psrs ↔
  isdir pardir = true ∧ isdir timdir = true ∧
  Forall2 (loads ephem0)
    (take (load_count num_psrs 0 (length (combo_list pardir timdir)))
          (combo_list pardir timdir))
    psrs.
Proof.
  unfold load_from_directories.
  destruct (isdir pardir); simpl; [|by split; [|intros (? & _)]].
  destruct (isdir timdir); simpl; [|by split; [|intros (_ & ? & _)]].
  rewrite load_loop_limit, load_all_inr. simpl. split.
  - intros (loaded & -> & HF). done.
  - intros (_ & _ & HF). by exists psrs.
Qed.

Lemma load_from_directories_inl pardir timdir ephem0 num_psrs e :
  load_from_directories pardir timdir ephem0 num_psrs = inl e ↔
  (isdir pardir = false ∧
   e = FileNotFoundError "par directory does not exist.") ∨
  (isdir pardir = true ∧ isdir timdir = false ∧
   e = FileNotFoundError "tim directory does not exist.") ∨
  (isdir pardir = true ∧ isdir timdir = true ∧
   ∃ j pt loaded,
     j < load_count num_psrs 0 (length (combo_list pardir timdir)) ∧
     combo_list pardir timdir !! j = Some pt ∧
     Forall2 (loads ephem0) (take j (combo_list pardir timdir)) loaded ∧
     load_pulsar pt.1 pt.2 ephem0 = inl e).
Proof.
  unfold load_from_directories.
  destruct (isdir pardir); simpl.
  2:{ split; [intros [= <-]; by left|].
      by intros [[_ ->]|[(? & _)|(? & _)]]. }
  destruct (isdir timdir); simpl.
  2:{ split; [intros [= <-]; right; by left|].
      by intros [[? _]|[(_ & _ & ->)|(_ & ? & _)]]. }
  rewrite load_loop_limit, load_all_inl. simpl.
  set (combo := combo_list pardir timdir).
  set (k := load_count num_psrs 0 (length combo)).
  split.
  - intros (j & pt & loaded & Hj & HF & He). right; right.
    split; [done|]. split; [done|].
    apply lookup_take_Some in Hj as [Hj Hlt].
    exists j, pt, loaded. split; [done|]. split; [done|].
    split; [|done]. rewrite take_take in HF.
    by replace (Nat.min j k) with j in HF by lia.
  - intros [[? _]|[(_ & ? & _)|(_ & _ & j & pt & loaded & Hlt & Hj & HF & He)]];
      [done|done|].
    exists j, pt, loaded. split; [by apply lookup_take_Some|].
    split; [|done]. rewrite take_take.
    by replace (Nat.min j k) with j by lia.
Qed.

(** [load_from_directories] returns exactly when both directories exist and
    every pair it is to load loads; the result holds the pulsars of the
    first pairs of par and tim files, in order, as many as [num_psrs]
    allows. *)
Theorem load_from_directories_result pardir timdir ephem0 num_psrs psrs :
  load_from_directories pardir timdir ephem0 num_psrs = inr psrs ↔
  isdir pardir = true ∧ isdir timdir = true ∧
  Forall2 (loads ephem0)
    (take (load_count num_psrs 0 (length (combo_list pardir timdir)))
          (combo_list pardir timdir))
    psrs.
Proof. apply load_from_directories_inr. Qed.

(** [load_from_directories] raises exactly when a directory is missing, the
    par directory being looked at first, or when one of the pairs it is to
    load fails, in which case the error is that of the first failing pair
    and the pulsars loaded before it are lost. *)
Theorem load_from_directories_errors pardir timdir ephem0 num_psrs e :
  load_from_directories pardir timdir ephem0 num_psrs = inl e ↔
  (isdir pardir = false ∧
   e = FileNotFoundError "par directory does not exist.") ∨
  (isdir pardir = true ∧ isdir timdir = false ∧
   e = FileNotFoundError "tim directory does not exist.") ∨
  (isdir pardir = true ∧ isdir timdir = true ∧
   ∃ j pt loaded,
     j < load_count num_psrs 0 (length (combo_list pardir timdir)) ∧
     combo_list pardir timdir !! j = Some pt ∧
     Forall2 (loads ephem0) (take j (combo_list pardir timdir)) loaded ∧
     load_pulsar pt.1 pt.2 ephem0 = inl e).
Proof. apply load_from_directories_inl. Qed.

(** [num_psrs=0] is the same as no limit; a negative [num_psrs] gives an
    empty list without loading anything; and the result never holds more
    pulsars than a positive [num_psrs]. *)
Theorem load_from_directories_limit pardir timdir ephem0 :
  load_from_directories pardir timdir ephem0 (Some 0%Z)
  = load_from_directories pardir timdir ephem0 None ∧
  (∀ z, (z < 0)%Z → isdir pardir = true → isdir timdir = true →
        load_from_directories pardir timdir ephem0 (Some z) = inr []) ∧
  (∀ z psrs, (0 < z)%Z →
     load_from_directories pardir timdir ephem0 (Some z) = inr psrs →
     (Z.of_nat (length psrs) <= z)%Z ∧
     length psrs = Nat.min (Z.to_nat z) (length (combo_list pardir timdir))).
Proof.
  split; [|split].
  - unfold load_from_directories.
    rewrite (load_loop_limit _ (Some 0%Z)). unfold load_count. simpl.
    by rewrite take_ge by lia.
  - intros z Hz Hp Ht. apply load_from_directories_inr.
    split; [done|]. split; [done|]. unfold load_count.
    assert ((z =? 0)%Z = false) as -> by (apply Z.eqb_neq; lia).
    replace (Z.to_nat z - 0) with 0 by lia. simpl. constructor.
  - intros z psrs Hz Hr.
    apply load_from_directories_inr in Hr as (_ & _ & HF).
    apply Forall2_length in HF. rewrite length_take in HF.
    unfold load_count in HF.
    assert ((z =? 0)%Z = false) as Hz0 by (apply Z.eqb_neq; lia).
    rewrite Hz0 in HF. lia.
Qed.

Lemma zip_fst_take {A C} (l : list A) (k : list C) :
  (zip l k).*1 = take (length k) l.
Proof.
  revert k. induction l as [|x l IH]; intros [|y k]; simpl; try done.
  by rewrite IH.
Qed.

Lemma zip_snd_take {A C} (l : list A) (k : list C) :
  (zip l k).*2 = take (length l) k.
Proof.
  revert k. induction l as [|x l IH]; intros [|y k]; simpl; try done.
  by rewrite IH.
Qed.

(** The pairs of files: the par files are those that [glob] finds and whose
    path does not contain [".t2"], in ascending order; the tim files are
    those that [glob] finds, in ascending order; they are paired by
    position, whatever their names, and the longer list is cut. *)
Theorem combo_list_pairs pardir timdir :
  StronglySorted path_le (combo_list pardir timdir).*1 ∧
  StronglySorted path_le (combo_list pardir timdir).*2 ∧
  (∀ par tim, (par, tim) ∈ combo_list pardir timdir →
     par ∈ glob (pardir +:+ "/*.par") ∧ contains ".t2" par = false ∧
     tim ∈ glob (timdir +:+ "/*.tim")) ∧
  (∀ j par tim, combo_list pardir timdir !! j = Some (par, tim) ↔
     filter (fun p => negb (contains ".t2" p) = true)
       (sorted (glob (pardir +:+ "/*.par"))) !! j = Some par ∧
     sorted (glob (timdir +:+ "/*.tim")) !! j = Some tim) ∧
  length (combo_list pardir timdir)
  = Nat.min (length (filter (fun p => negb (contains ".t2" p) = true)
                       (glob (pardir +:+ "/*.par"))))
            (length (glob (timdir +:+ "/*.tim"))).
Proof.
  unfold combo_list.
  set (pars := filter _ (sorted (glob (pardir +:+ "/*.par")))).
  set (tims := sorted (glob (timdir +:+ "/*.tim"))).
  split; [|split; [|split; [|split]]].
  - rewrite zip_fst_take. apply StronglySorted_take.
    apply StronglySorted_filter, sorted_strongly_sorted.
  - rewrite zip_snd_take. apply StronglySorted_take, sorted_strongly_sorted.
  - intros par tim Hin.
    pose proof (elem_of_zip_l _ _ _ _ Hin) as Hp.
    pose proof (elem_of_zip_r _ _ _ _ Hin) as Ht.
    apply list_elem_of_filter in Hp as [Hno Hp].
    rewrite sorted_perm in Hp. unfold tims in Ht. rewrite sorted_perm in Ht.
    split; [done|]. split; [|done]. by apply negb_true_iff.
  - intros j par tim. split.
    + by intros (x & y & [= -> ->] & ? & ?)%lookup_zip_with_Some.
    + intros [? ?]. apply lookup_zip_with_Some. by exists par, tim.
  - rewrite length_zip_with. unfold pars, tims.
    rewrite (sorted_perm (glob (timdir +:+ "/*.tim"))).
    by rewrite (sorted_perm (glob (pardir +:+ "/*.par"))).
Qed.

(** A directory whose first par file has a model with RAJ and DECJ cannot
    be loaded: [load_from_directories] raises the error of [load_pulsar] and
    returns no pulsar, unless [num_psrs] is negative. *)
Theorem load_from_directories_equatorial pardir timdir ephem0 num_psrs par tim rest :
  isdir pardir = true → isdir timdir = true →
  combo_list pardir timdir = (par, tim) :: rest →
  isfile par = true → isfile tim = true →
  is_Some (RAJ (get_model par)) → is_Some (DECJ (get_model par)) →
  (∀ z, num_psrs = Some z → (0 <= z)%Z) →
  load_from_directories pardir timdir ephem0 num_psrs
  = inl (AttributeError msg_no_location).
Proof.
  intros Hp Ht Hc Hfp Hft [ra Hra] [dec Hdec] Hz.
  apply load_from_directories_inl. right; right.
  split; [done|]. split; [done|]. rewrite Hc.
  exists 0, (par, tim), []. split; [|split; [done|split; [constructor|]]].
  - unfold load_count. destruct num_psrs as [z|]; simpl; [|lia].
    specialize (Hz z eq_refl). destruct (z =? 0)%Z eqn:E; [lia|].
    apply Z.eqb_neq in E. lia.
  - simpl. unfold load_pulsar. rewrite Hfp, Hft, Hra, Hdec. done.
Qed.

(** The loader of [sim.py] is the one of [simulate.py] without the two
    directory checks. *)
Lemma sim_load_from_directories_agrees pardir timdir ephem0 num_psrs :
  isdir pardir = true → isdir timdir = true →
  sim_load_from_directories pardir timdir ephem0 num_psrs
  = load_from_directories pardir timdir ephem0 num_psrs.
Proof.
  intros Hp Ht. unfold sim_load_from_directories, load_from_directories.
  by rewrite Hp, Ht.
Qed.

End LoaderFacts.

(** ** [make_ideal] *)

Section IdealFacts.
Context `{B : Backend}.

Lemma ideal_step_run w :
  ideal_step w
  = (inr tt,
     {| rng := rng w;
        psr := shift_toas (psr w)
                 (to_day ((fun r => (-1 * r)%Q)
                            <$> Residuals (toas (psr w)) (model (psr w)))) |}).
Proof. done. Qed.

Lemma make_ideal_run iterations w :
  make_ideal iterations w
  = match for_range (Z.to_nat iterations) ideal_step w with
    | (inl e, w1) => (inl e, w1)
    | (inr _, w1) =>
        (inr tt, {| rng := rng w1; psr := refresh_residuals (psr w1) |})
    end.
Proof.
  unfold make_ideal, update_residuals. run_M.
  by destruct (for_range (Z.to_nat iterations) ideal_step w) as [[e|[]] w1].
Qed.

(** What the loop of [make_ideal] keeps: everything but the arrival times. *)
Lemma for_range_ideal_keeps n w :
  (∀ ts, length (Residuals ts (model (psr w))) = length ts) →
  ∃ p',
    for_range n ideal_step w = (inr tt, {| rng := rng w; psr := p' |}) ∧
    Forall2 (fun t t' => toa_error t' = toa_error t ∧
                         toa_flags t' = toa_flags t) (toas (psr w)) (toas p') ∧
    model p' = model (psr w) ∧ ephem p' = ephem (psr w) ∧
    name p' = name (psr w) ∧ loc p' = loc (psr w) ∧
    residuals p' = residuals (psr w) ∧
    (n = 0 → p' = psr w).
Proof.
  revert w. induction n as [|n IH]; intros w Hlen.
  - exists (psr w). simpl. unfold mret, M_ret. destruct w. simpl.
    repeat split; try done. apply Forall_Forall2_diag, Forall_forall. done.
  - cbn [for_range]. unfold mbind, M_bind. rewrite ideal_step_run.
    set (w1 := {| rng := rng w; psr := shift_toas (psr w) _ |}).
    destruct (IH w1) as (p' & Hrun & HF & Hm & He & Hn & Hl & Hr & _).
    { intros ts. apply Hlen. }
    exists p'. split; [done|]. simpl in *.
    split; [|by repeat split].
    assert (Forall2 (fun t t' => toa_error t' = toa_error t ∧
                                 toa_flags t' = toa_flags t)
              (toas (psr w)) (toas (psr w1))) as H1.
    { apply Forall2_same_length_lookup. split.
      - simpl. rewrite length_zip_with, to_day_length, length_fmap, Hlen. lia.
      - intros i t t' Ht Ht'. simpl in Ht'.
        apply lookup_zip_with_Some in Ht' as (t0 & d & -> & Ht0 & _).
        rewrite Ht in Ht0. by injection Ht0 as <-. }
    refine (Forall2_trans _ _ _ _ _ _ _ H1 HF).
    intros t1 t2 t3 [? ?] [? ?]. split; congruence.
Qed.

(** Whenever [make_ideal] returns, it has not touched the generator.  When
    the residuals come one per observation, it has kept the number of
    observations, their uncertainties and flags, the model, the name and the
    location, and it leaves residuals that are those of the final arrival
    times; with no iteration (zero or a negative number) the arrival times
    are as before. *)
Theorem make_ideal_effect iterations w w' :
  (∀ ts, length (Residuals ts (model (psr w))) = length ts) →
  make_ideal iterations w = (inr tt, w') →
  rng w' = rng w ∧
  Forall2 (fun t t' => toa_error t' = toa_error t ∧
                       toa_flags t' = toa_flags t)
    (toas (psr w)) (toas (psr w')) ∧
  model (psr w') = model (psr w) ∧ ephem (psr w') = ephem (psr w) ∧
  name (psr w') = name (psr w) ∧ loc (psr w') = loc (psr w) ∧
  residuals (psr w') = Residuals (toas (psr w')) (model (psr w')) ∧
  ((iterations <= 0)%Z → toas (psr w') = toas (psr w)).
Proof.
  intros Hlen.
  destruct (for_range_ideal_keeps (Z.to_nat iterations) w Hlen)
    as (p1 & Hrun & HF & Hm & He & Hn & Hl & _ & H0).
  rewrite make_ideal_run, Hrun. intros [= <-]. simpl.
  repeat split; try done.
  intros Hz. rewrite H0; [done|lia].
Qed.

Lemma ideal_step_exact (m : TimingModel) (pred : TOA → Q) p :
  exact_residuals m pred → model p = m →
  Forall (fun t => (toa_mjd t == pred t)%Q)
    (toas (shift_toas p
             (to_day ((fun r => (-1 * r)%Q) <$> Residuals (toas p) (model p))))) ∧
  length (toas (shift_toas p
             (to_day ((fun r => (-1 * r)%Q) <$> Residuals (toas p) (model p)))))
  = length (toas p).
Proof.
  intros [Hres Hpred] Hm. rewrite Hm, Hres. unfold shift_toas, to_day. simpl.
  rewrite <- !list_fmap_compose. rewrite zip_with_fmap_r, zip_with_diag.
  split; [|by rewrite length_fmap].
  apply Forall_fmap, Forall_forall. intros t _. simpl.
  rewrite Hpred. field.
Qed.

Lemma for_range_ideal_exact (m : TimingModel) (pred : TOA → Q) n w :
  exact_residuals m pred → model (psr w) = m →
  Forall (fun t => (toa_mjd t == pred t)%Q) (toas (psr w)) ∨ 0 < n →
  ∃ p',
    for_range n ideal_step w = (inr tt, {| rng := rng w; psr := p' |}) ∧
    model p' = m ∧
    length (toas p') = length (toas (psr w)) ∧
    Forall (fun t => (toa_mjd t == pred t)%Q) (toas p').
Proof.
  intros Hex. revert w. induction n as [|n IH]; intros w Hm Hstart.
  - destruct Hstart as [Hs|?]; [|lia]. exists (psr w). by destruct w.
  - cbn [for_range]. unfold mbind, M_bind. rewrite ideal_step_run.
    destruct (ideal_step_exact m pred (psr w) Hex Hm) as [Hall Hlen].
    set (w1 := {| rng := rng w; psr := shift_toas (psr w) _ |}) in *.
    destruct (IH w1) as (p' & Hrun & Hm' & Hlen' & Hall'); [done|by left|].
    exists p'. split; [done|]. split; [done|]. split; [|done].
    simpl in *. congruence.
Qed.

(** When the residuals are exact (each is the distance in seconds from the
    arrival time to a predicted time that does not move with it),
    [make_ideal] with at least one iteration puts every arrival time on its
    prediction and leaves residuals that are all zero. *)
Theorem make_ideal_zeroes iterations w (pred : TOA → Q) :
  exact_residuals (model (psr w)) pred → (0 < iterations)%Z →
  ∃ p',
    make_ideal iterations w = (inr tt, {| rng := rng w; psr := p' |}) ∧
    length (toas p') = length (toas (psr w)) ∧
    Forall (fun t => (toa_mjd t == pred t)%Q) (toas p') ∧
    Forall (fun r => (r == 0)%Q) (residuals p').
Proof.
  intros Hex Hz.
  destruct (for_range_ideal_exact (model (psr w)) pred (Z.to_nat iterations) w
              Hex eq_refl) as (p1 & Hrun & Hm & Hlen & Hall); [right; lia|].
  exists (refresh_residuals p1). rewrite make_ideal_run, Hrun. simpl.
  split; [done|]. split; [done|]. split; [done|].
  rewrite Hm. destruct Hex as [Hres _]. rewrite Hres.
  apply Forall_fmap. eapply Forall_impl; [exact Hall|].
  intros t Ht. simpl. rewrite Ht. ring.
Qed.

End IdealFacts.

(** ** The further properties at concrete inputs *)

Section MoreWitnesses.
Import Sample SampleFiles.

Lemma add_measurement_noise_effect_witness :
  ∃ dt w1,
    measurement_noise_dt (B := sample_backend) (Scalar 2%Q) None None
      (Some 1%Z) false sample_world = (inr dt, w1) ∧
    length dt = 3 ∧
    length (toas (psr (add_measurement_noise (B := sample_backend) (Scalar 2%Q)
                         None None (Some 1%Z) false sample_world).2)) = 3 ∧
    (∀ i toa, toas sample_psr !! i = Some toa →
       ∃ d, dt !! i = Some d ∧
            toas (psr (add_measurement_noise (B := sample_backend) (Scalar 2%Q)
                         None None (Some 1%Z) false sample_world).2) !! i
            = Some {| toa_mjd := (toa_mjd toa + d / 86400)%Q;
                      toa_error := toa_error toa;
                      toa_flags := toa_flags toa |}) ∧
    model (psr (add_measurement_noise (B := sample_backend) (Scalar 2%Q)
                  None None (Some 1%Z) false sample_world).2)
    = model sample_psr ∧
    residuals (psr (add_measurement_noise (B := sample_backend) (Scalar 2%Q)
                      None None (Some 1%Z) false sample_world).2)
    = Residuals (Backend := sample_backend)
        (toas (psr (add_measurement_noise (B := sample_backend) (Scalar 2%Q)
                      None None (Some 1%Z) false sample_world).2))
        (model (psr (add_measurement_noise (B := sample_backend) (Scalar 2%Q)
                       None None (Some 1%Z) false sample_world).2)) ∧
    (∀ k, rng (add_measurement_noise (B := sample_backend) (Scalar 2%Q)
                 None None (Some 1%Z) false sample_world).2 k
          = sample_seeded 1 (3 + (3 + k))).
Proof.
  refine (add_measurement_noise_effect (B := sample_backend) (Scalar 2%Q) None
            None (Some 1%Z) false sample_world _ _).
  reflexivity.
Defined.

Lemma add_jitter_effect_witness :
  ∃ refs inds dt w1,
    bucketize (toas_times sample_psr) 1%Q (argsort (toas_times sample_psr))
    = Some (refs, inds) ∧
    jitter_dt (B := sample_backend) (Scalar (1 # 2)%Q) None 1%Q (Some 1%Z)
      sample_world = (inr dt, w1) ∧
    length (toas (psr (add_jitter (B := sample_backend) (Scalar (1 # 2)%Q) None
                         1%Q (Some 1%Z) sample_world).2)) = 3 ∧
    (∀ i toa, toas sample_psr !! i = Some toa →
       ∃ d, dt !! i = Some d ∧
            toas (psr (add_jitter (B := sample_backend) (Scalar (1 # 2)%Q) None
                         1%Q (Some 1%Z) sample_world).2) !! i
            = Some {| toa_mjd := (toa_mjd toa + d / 86400)%Q;
                      toa_error := toa_error toa;
                      toa_flags := toa_flags toa |}) ∧
    model (psr (add_jitter (B := sample_backend) (Scalar (1 # 2)%Q) None 1%Q
                  (Some 1%Z) sample_world).2) = model sample_psr ∧
    residuals (psr (add_jitter (B := sample_backend) (Scalar (1 # 2)%Q) None
                      1%Q (Some 1%Z) sample_world).2)
    = Residuals (Backend := sample_backend)
        (toas (psr (add_jitter (B := sample_backend) (Scalar (1 # 2)%Q) None
                      1%Q (Some 1%Z) sample_world).2))
        (model (psr (add_jitter (B := sample_backend) (Scalar (1 # 2)%Q) None
                       1%Q (Some 1%Z) sample_world).2)) ∧
    (∀ k, rng (add_jitter (B := sample_backend) (Scalar (1 # 2)%Q) None 1%Q
                 (Some 1%Z) sample_world).2 k
          = sample_seeded 1 (length inds + k)).
Proof.
  refine (add_jitter_effect (B := sample_backend) (Scalar (1 # 2)%Q) None 1%Q
            (Some 1%Z) sample_world _ _).
  reflexivity.
Defined.

Lemma per_flag_measurement_noise_witness :
  ∃ dt w1,
    measurement_noise_dt (B := sample_backend) (Array [1; 2]%Q)
      (Some (Array [-(7); -(8)]%Q)) (Some ["A"; "C"]) (Some 1%Z) false
      sample_world = (inr dt, w1) ∧
    ∀ i toa fb,
      toas sample_psr !! i = Some toa → toa_flags toa !! "f" = Some fb →
      ∃ e q d,
        selected_by_flag ["A"; "C"] (Array [1; 2]%Q) fb e ∧
        selected_by_flag ["A"; "C"]
          (Array [sample_pow10 (-(7)); sample_pow10 (-(8))]%Q) fb q ∧
        dt !! i = Some d ∧
        d = (e * toa_error toa * sample_seeded 1 i +
             e * q * sample_seeded 1 (3 + i)%nat)%Q ∧
        (fb ∉ ["A"; "C"] → (d == 0)%Q).
Proof.
  refine (per_flag_measurement_noise (B := sample_backend) [1; 2]%Q
            (Some (Array [-(7); -(8)]%Q))
            [sample_pow10 (-(7)); sample_pow10 (-(8))]%Q ["A"; "C"]
            (Some 1%Z) false sample_world ["A"; "B"; "B"] _ _ _ _);
    reflexivity.
Defined.

Lemma add_measurement_noise_causes_witness :
  ∃ fl xs, Some ["A"; "B"] = Some fl ∧ Array [1 # 2]%Q = Array xs ∧
    (length xs ≠ length fl ∨
     ∃ ys, equad_of (B := sample_backend) (Some (Array [-(7); -(8)]%Q))
           = Array ys ∧ length ys ≠ length fl).
Proof.
  refine (proj1 (proj2 (proj2
            (add_measurement_noise_causes (B := sample_backend)
               (Array [1 # 2]%Q) (Some (Array [-(7); -(8)]%Q))
               (Some ["A"; "B"]) (Some 3%Z) false sample_world
               (inl (ValueError msg_length))
               {| rng := sample_seeded 3; psr := sample_psr |} _))) eq_refl).
  reflexivity.
Defined.

Lemma load_pulsar_outcomes_witness :
  load_pulsar (B := ecliptic_backend) "par/A.par" "tim/A.tim" "DE440"
  = inr (ecliptic_pulsar (B := ecliptic_backend) "par/A.par" "tim/A.tim"
           "DE440" 1 2).
Proof.
  apply (proj2 (proj1 (load_pulsar_outcomes (B := ecliptic_backend)
                         "par/A.par" "tim/A.tim" "DE440") _)).
  split; [reflexivity|]. split; [reflexivity|]. split; [by left|].
  by exists 1%Q, 2%Q.
Defined.

Lemma load_from_directories_result_witness :
  load_from_directories (B := ecliptic_backend) (D := sample_directories)
    "par" "tim" "DE440" (Some 1%Z)
  = inr [ecliptic_pulsar (B := ecliptic_backend) "par/A.par" "tim/A.tim"
           "DE440" 1 2].
Proof.
  apply (proj2 (load_from_directories_result (B := ecliptic_backend)
                  (D := sample_directories) "par" "tim" "DE440" (Some 1%Z) _)).
  split; [reflexivity|]. split; [reflexivity|].
  repeat constructor.
Defined.

Lemma load_from_directories_errors_witness :
  load_from_directories (B := ecliptic_backend) (D := sample_directories)
    "pars" "tim" "DE440" None
  = inl (FileNotFoundError "par directory does not exist.").
Proof.
  apply (proj2 (load_from_directories_errors (B := ecliptic_backend)
                  (D := sample_directories) "pars" "tim" "DE440" None _)).
  left. split; reflexivity.
Defined.

Lemma load_from_directories_limit_witness :
  load_from_directories (B := sample_backend) (D := sample_directories)
    "par" "tim" "DE440" (Some (-1)%Z) = inr [].
Proof.
  apply (proj1 (proj2 (load_from_directories_limit (B := sample_backend)
                         (D := sample_directories) "par" "tim" "DE440")));
    reflexivity.
Defined.

Lemma load_from_directories_equatorial_witness :
  load_from_directories (B := sample_backend) (D := sample_directories)
    "par" "tim" "DE440" None
  = inl (AttributeError msg_no_location).
Proof.
  refine (load_from_directories_equatorial (B := sample_backend)
            (D := sample_directories) "par" "tim" "DE440" None
            "par/A.par" "tim/A.tim" [("par/B.par", "tim/B.tim")]
            _ _ _ _ _ _ _ _);
    try reflexivity; try (by eexists); done.
Defined.

Lemma make_ideal_effect_witness :
  rng ideal_world = rng ecliptic_world ∧
  Forall2 (fun t t' => toa_error t' = toa_error t ∧
                       toa_flags t' = toa_flags t)
    (toas (psr ecliptic_world)) (toas (psr ideal_world)) ∧
  model (psr ideal_world) = model (psr ecliptic_world) ∧
  ephem (psr ideal_world) = ephem (psr ecliptic_world) ∧
  name (psr ideal_world) = name (psr ecliptic_world) ∧
  loc (psr ideal_world) = loc (psr ecliptic_world) ∧
  residuals (psr ideal_world)
  = Residuals (Backend := ecliptic_backend) (toas (psr ideal_world))
      (model (psr ideal_world)) ∧
  ((2 <= 0)%Z → toas (psr ideal_world) = toas (psr ecliptic_world)).
Proof.
  refine (make_ideal_effect (B := ecliptic_backend) 2 ecliptic_world
            ideal_world _ _).
  - intros ts. apply length_fmap.
  - reflexivity.
Defined.

Lemma make_ideal_zeroes_witness :
  ∃ p',
    make_ideal (B := ecliptic_backend) 2 ecliptic_world
    = (inr tt, {| rng := rng ecliptic_world; psr := p' |}) ∧
    length (toas p') = length (toas (psr ecliptic_world)) ∧
    Forall (fun t => (toa_mjd t == toa_error t)%Q) (toas p') ∧
    Forall (fun r => (r == 0)%Q) (residuals p').
Proof.
  refine (make_ideal_zeroes (B := ecliptic_backend) 2 ecliptic_world toa_error
            _ _).
  - split; reflexivity.
  - reflexivity.
Defined.

End MoreWitnesses.
